(** * GN's [UniqueVector] and [SourceDir]

    A shallow embedding of [tools/gn/unique_vector.h] and of the inline part
    of [tools/gn/source_dir.h], with the properties their specification
    states.

    Conventions of the embedding:
    - [size_t] is an integer in [0 .. SIZE_MAX]; arithmetic on it wraps
      modulo [SIZE_MAX + 1].  The width is not fixed by the header, so
      [SIZE_MAX] is a parameter.
    - A [std::vector<T>] is a [list T], element [i] being [v !! i].  Reading
      out of range is undefined behaviour in C++ and [None] here.
    - The [std::unordered_set<Ref>] is the list of its elements in order of
      insertion.  [find] is "same hash value, then [operator==]", which is
      what a hash table with user supplied hash and equality computes; the
      iteration order of the table is never observed by [UniqueVector]. *)

From Stdlib Require Import ZArith Lia Bool.
From Stdlib Require Import Ascii String.
From stdpp Require Import base list.

Local Open Scope Z_scope.

(** ** [size_t] *)

Section SizeT.

Variable SIZE_MAX : Z.

(** [static_cast<size_t>(z)] *)
Definition static_cast_size_t (z : Z) : Z := z mod (SIZE_MAX + 1).

(** [a - b] on [size_t] *)
Definition size_t_sub (a b : Z) : Z := static_cast_size_t (a - b).

End SizeT.

(** ** [internal::UniquifyRef<T>] and [UniqueVector<T>] *)

Section UniqueVector.

Variable SIZE_MAX : Z.

(** The element type, with its [operator==] and its [std::hash<T>]. *)
Variable T : Type.
Variable T_eq : T -> T -> bool.
Variable T_hash : T -> Z.

(** What T's move constructor leaves in the object it moved from. *)
Variable moved_from : T -> T.

(** A [const T*] held by a reference is null or the address of the
    parameter [t] of the member function that is running; a
    [const std::vector<T>*] is null or the address of the [vector_]
    member of the owning [UniqueVector]. *)
Inductive T_ptr : Type := T_nullptr | addr_t.
Inductive Vector_ptr : Type := Vector_nullptr | addr_vector_.

Record UniquifyRef : Type := mkUniquifyRef {
  value_ : T_ptr;
  vect_ : Vector_ptr;
  index_ : Z;
  hash_val_ : Z
}.

(** The part of memory a reference can read: the object [t] points to and
    the vector. *)
Record Memory : Type := mkMemory {
  mem_t : T;
  mem_vector_ : list T
}.

(** [UniquifyRef() = default], with the default member initializers. *)
Definition UniquifyRef_default : UniquifyRef :=
  {| value_ := T_nullptr;
     vect_ := Vector_nullptr;
     index_ := static_cast_size_t SIZE_MAX (-1);
     hash_val_ := 0 |}.

(** [value()]: the object [value_] points to when it is not null, else
    element [index_] of the vector [vect_] points to. *)
Definition value (m : Memory) (r : UniquifyRef) : option T :=
  match value_ r with
  | addr_t => Some (mem_t m)
  | T_nullptr =>
      match vect_ r with
      | addr_vector_ =>
          if index_ r <? 0 then None
          else mem_vector_ m !! Z.to_nat (index_ r)
      | Vector_nullptr => None
      end
  end.

Definition hash_val (r : UniquifyRef) : Z := hash_val_ r.
Definition index (r : UniquifyRef) : Z := index_ r.

(** [hash_val_ = h(value())] *)
Definition FillHashValue (m : Memory) (r : UniquifyRef) : UniquifyRef :=
  match value m r with
  | Some x =>
      {| value_ := value_ r; vect_ := vect_ r; index_ := index_ r;
         hash_val_ := T_hash x |}
  | None => r
  end.

(** [explicit UniquifyRef(const T* v)] *)
Definition UniquifyRef_of_ptr (m : Memory) (v : T_ptr) : UniquifyRef :=
  FillHashValue m
    {| value_ := v;
       vect_ := vect_ UniquifyRef_default;
       index_ := index_ UniquifyRef_default;
       hash_val_ := hash_val_ UniquifyRef_default |}.

(** [UniquifyRef(const std::vector<T>* v, size_t i)] *)
Definition UniquifyRef_of_index (m : Memory) (v : Vector_ptr) (i : Z)
  : UniquifyRef :=
  FillHashValue m
    {| value_ := value_ UniquifyRef_default;
       vect_ := v;
       index_ := i;
       hash_val_ := hash_val_ UniquifyRef_default |}.

(** [UniquifyRef(const std::vector<T>* v, size_t i, size_t hash_value)] *)
Definition UniquifyRef_of_index_hash (v : Vector_ptr) (i hash_value : Z)
  : UniquifyRef :=
  {| value_ := value_ UniquifyRef_default;
     vect_ := v;
     index_ := i;
     hash_val_ := hash_value |}.

(** [operator==(const UniquifyRef<T>&, const UniquifyRef<T>&)] *)
Definition UniquifyRef_eq (m : Memory) (a b : UniquifyRef) : bool :=
  match value m a, value m b with
  | Some x, Some y => T_eq x y
  | _, _ => false
  end.

(** [std::hash<internal::UniquifyRef<T>>] *)
Definition UniquifyRef_hash (v : UniquifyRef) : Z := hash_val v.

(** *** The hash set of references *)

Definition HashSet : Type := list UniquifyRef.

Definition matches (m : Memory) (key r : UniquifyRef) : bool :=
  (UniquifyRef_hash r =? UniquifyRef_hash key) && UniquifyRef_eq m r key.

(** [set.find(key)]: the element found, [None] for [set.end()]. *)
Definition HashSet_find (m : Memory) (s : HashSet) (key : UniquifyRef)
  : option UniquifyRef :=
  List.find (matches m key) s.

(** [set.insert(r)] *)
Definition HashSet_insert (m : Memory) (s : HashSet) (r : UniquifyRef)
  : HashSet :=
  match HashSet_find m s r with
  | Some _ => s
  | None => s ++ [r]
  end.

(** A probe for [t]: a reference that reads as [t] and caches its hash, as
    the one [push_back] and [IndexOf] look up. *)
Definition probes (m : Memory) (key : UniquifyRef) (t : T) : Prop :=
  value m key = Some t /\ hash_val key = T_hash t.

(** *** [UniqueVector<T>] *)

Record UniqueVector : Type := mkUniqueVector {
  set_ : HashSet;
  vector_ : list T
}.

(** A freshly constructed collection. *)
Definition UniqueVector_new : UniqueVector :=
  {| set_ := []; vector_ := [] |}.

Definition vector (uv : UniqueVector) : list T := vector_ uv.
Definition size (uv : UniqueVector) : Z := Z.of_nat (length (vector_ uv)).
Definition empty (uv : UniqueVector) : bool :=
  match vector_ uv with [] => true | _ => false end.

Definition clear (uv : UniqueVector) : UniqueVector :=
  {| set_ := []; vector_ := [] |}.

(** [vector_.reserve(s)] changes the capacity only, which the embedding
    does not record. *)
Definition reserve (s : Z) (uv : UniqueVector) : UniqueVector :=
  {| set_ := set_ uv; vector_ := vector_ uv |}.

(** [operator[](size_t index)] *)
Definition at_index (uv : UniqueVector) (i : Z) : option T :=
  if i <? 0 then None else vector_ uv !! Z.to_nat i.

(** [bool push_back(const T& t)] *)
Definition push_back (t : T) (uv : UniqueVector) : bool * UniqueVector :=
  let ref := UniquifyRef_of_ptr (mkMemory t (vector_ uv)) addr_t in
  match HashSet_find (mkMemory t (vector_ uv)) (set_ uv) ref with
  | Some _ => (false, uv)
  | None =>
      let vector' := vector_ uv ++ [t] in
      let set' :=
        HashSet_insert (mkMemory t vector') (set_ uv)
          (UniquifyRef_of_index_hash addr_vector_
             (size_t_sub SIZE_MAX (Z.of_nat (length vector')) 1)
             (hash_val ref)) in
      (true, {| set_ := set'; vector_ := vector' |})
  end.

(** [bool push_back(T&& t)]; the third component is what the caller's
    object [t] holds when the call returns. *)
Definition push_back_move (t : T) (uv : UniqueVector)
  : bool * UniqueVector * T :=
  let ref := UniquifyRef_of_ptr (mkMemory t (vector_ uv)) addr_t in
  match HashSet_find (mkMemory t (vector_ uv)) (set_ uv) ref with
  | Some _ => (false, uv, t)
  | None =>
      let ref_hash_val := hash_val ref in
      let vector' := vector_ uv ++ [t] in
      let t' := moved_from t in
      let set' :=
        HashSet_insert (mkMemory t' vector') (set_ uv)
          (UniquifyRef_of_index_hash addr_vector_
             (size_t_sub SIZE_MAX (Z.of_nat (length vector')) 1)
             ref_hash_val) in
      (true, {| set_ := set'; vector_ := vector' |}, t')
  end.

(** [Append(begin, end)], the range being given as the list of its
    elements. *)
Definition Append (items : list T) (uv : UniqueVector) : UniqueVector :=
  fold_left (fun acc i => snd (push_back i acc)) items uv.

(** [size_t IndexOf(const T& t) const] *)
Definition IndexOf (t : T) (uv : UniqueVector) : Z :=
  let ref := UniquifyRef_of_ptr (mkMemory t (vector_ uv)) addr_t in
  match HashSet_find (mkMemory t (vector_ uv)) (set_ uv) ref with
  | None => static_cast_size_t SIZE_MAX (-1)
  | Some found => index found
  end.

(** *** States and their invariant *)

(** The reference [push_back] commits for element [i] of the vector. *)
Definition committed (i : nat) (x : T) : UniquifyRef :=
  UniquifyRef_of_index_hash addr_vector_ (Z.of_nat i) (T_hash x).

(** An element equal to [v] under T's equality is stored. *)
Definition stored (v : T) (uv : UniqueVector) : Prop :=
  exists (i : nat) (x : T), vector_ uv !! i = Some x /\ T_eq x v = true.

(** No stored element is equal to [v]. *)
Definition absent (v : T) (uv : UniqueVector) : Prop :=
  forall (i : nat) (x : T), vector_ uv !! i = Some x -> T_eq x v = false.

(** No two positions of the sequence hold equal elements. *)
Definition distinct (l : list T) : Prop :=
  forall (i j : nat) (x y : T),
    i <> j -> l !! i = Some x -> l !! j = Some y -> T_eq x y = false.

(** A reference of the index is committed and valid: it is in
    (vector, index) mode, its index is a position of the sequence, and it
    carries the hash of the element at that position. *)
Definition valid_ref (uv : UniqueVector) (r : UniquifyRef) : Prop :=
  value_ r = T_nullptr /\
  vect_ r = addr_vector_ /\
  0 <= index_ r < size uv /\
  exists x : T,
    at_index uv (index_ r) = Some x /\ hash_val_ r = T_hash x.

(** The invariant the specification states. *)
Definition invariant (uv : UniqueVector) : Prop :=
  distinct (vector_ uv) /\
  length (set_ uv) = length (vector_ uv) /\
  (forall r : UniquifyRef, r ∈ set_ uv -> valid_ref uv r).

(** The representation invariant the proofs carry: the index holds, for
    each position in turn, the reference committed for it; the elements
    are pairwise different; every position fits a [size_t]. *)
Record represents (uv : UniqueVector) : Prop := mkRepresents {
  rep_set : set_ uv = imap committed (vector_ uv);
  rep_distinct : distinct (vector_ uv);
  rep_size : size uv <= SIZE_MAX
}.

(** States reachable from a freshly constructed collection.  A
    [std::vector] never holds more than [max_size()] elements, which is
    below [SIZE_MAX]: an operation that would go beyond throws and yields
    no state, hence the bound on the size of each state produced. *)
Inductive reachable : UniqueVector -> Prop :=
| reachable_new : reachable UniqueVector_new
| reachable_push_back (t : T) (uv : UniqueVector) :
    reachable uv ->
    size (snd (push_back t uv)) <= SIZE_MAX ->
    reachable (snd (push_back t uv))
| reachable_push_back_move (t : T) (uv : UniqueVector) :
    reachable uv ->
    size (snd (fst (push_back_move t uv))) <= SIZE_MAX ->
    reachable (snd (fst (push_back_move t uv)))
| reachable_Append (items : list T) (uv : UniqueVector) :
    reachable uv ->
    size (Append items uv) <= SIZE_MAX ->
    reachable (Append items uv)
| reachable_clear (uv : UniqueVector) :
    reachable uv -> reachable (clear uv)
| reachable_reserve (s : Z) (uv : UniqueVector) :
    reachable uv -> reachable (reserve s uv).

(** The values of [items] in the order of their first occurrence: an item
    is kept when no item before it ([earlier], then the items already
    passed) is equal to it. *)
Fixpoint first_occurrences (earlier items : list T) : list T :=
  match items with
  | [] => []
  | x :: rest =>
      if existsb (fun y => T_eq y x) earlier
      then first_occurrences (earlier ++ [x]) rest
      else x :: first_occurrences (earlier ++ [x]) rest
  end.

(** [earlier] stands for the same values as the stored elements. *)
Definition covers (earlier : list T) (uv : UniqueVector) : Prop :=
  forall z : T,
    existsb (fun y => T_eq y z) earlier = true <-> stored z uv.

End UniqueVector.

Arguments mkMemory {T} mem_t mem_vector_.
Arguments mem_t {T} _.
Arguments mem_vector_ {T} _.
Arguments value {T} m r.
Arguments FillHashValue {T} T_hash m r.
Arguments UniquifyRef_of_ptr SIZE_MAX {T} T_hash m v.
Arguments UniquifyRef_of_index SIZE_MAX {T} T_hash m v i.
Arguments UniquifyRef_eq {T} T_eq m a b.
Arguments matches {T} T_eq m key r.
Arguments HashSet_find {T} T_eq m s key.
Arguments HashSet_insert {T} T_eq m s r.
Arguments mkUniqueVector {T} set_ vector_.
Arguments set_ {T} _.
Arguments vector_ {T} _.
Arguments UniqueVector_new {T}.
Arguments vector {T} uv.
Arguments size {T} uv.
Arguments empty {T} uv.
Arguments clear {T} uv.
Arguments reserve {T} s uv.
Arguments at_index {T} uv i.
Arguments push_back SIZE_MAX {T} T_eq T_hash t uv.
Arguments push_back_move SIZE_MAX {T} T_eq T_hash moved_from t uv.
Arguments Append SIZE_MAX {T} T_eq T_hash items uv.
Arguments IndexOf SIZE_MAX {T} T_eq T_hash t uv.
Arguments committed SIZE_MAX {T} T_hash i x.
Arguments stored {T} T_eq v uv.
Arguments absent {T} T_eq v uv.
Arguments probes {T} T_hash m key t.
Arguments covers {T} T_eq earlier uv.
Arguments distinct {T} T_eq l.
Arguments valid_ref {T} T_hash uv r.
Arguments invariant {T} T_eq T_hash uv.
Arguments represents SIZE_MAX {T} T_eq T_hash uv.
Arguments reachable SIZE_MAX {T} T_eq T_hash moved_from uv.
Arguments first_occurrences {T} T_eq earlier items.

(** * [SourceDir]

    The inline member functions of [tools/gn/source_dir.h].  A
    [std::string] is a [string]; lengths and positions of strings are
    natural numbers, every subtraction on them being guarded in the source
    so that it cannot wrap. *)

Module source_dir.

Record SourceDir : Type := mkSourceDir { value_ : string }.

(** [SourceDir() = default] *)
Definition SourceDir_default : SourceDir := {| value_ := EmptyString |}.

(** [s[i] == c], for [i] checked to be in range by the caller. *)
Definition char_is (s : string) (i : nat) (c : ascii) : bool :=
  match String.get i s with
  | Some c' => Ascii.eqb c' c
  | None => false
  end.

Definition is_null (d : SourceDir) : bool :=
  (String.length (value_ d) =? 0)%nat.

Definition value (d : SourceDir) : string := value_ d.

Definition is_source_absolute (d : SourceDir) : bool :=
  (2 <=? String.length (value_ d))%nat
  && char_is (value_ d) 0 "/"
  && char_is (value_ d) 1 "/".

Definition is_system_absolute (d : SourceDir) : bool :=
  negb (is_source_absolute d).

(** Modelled from the spec: the [CHECK] macro of [base/logging.h], which
    is not part of the sources.  A [CHECK] that fails is a precondition
    failure that aborts the program; [None] stands for the abort. *)
Definition CHECK (condition : bool) : option unit :=
  if condition then Some tt else None.

(** [std::string_view(&s[pos], len)] *)
Definition string_view (s : string) (pos len : nat) : string :=
  String.substring pos len s.

Definition SourceAbsoluteWithOneSlash (d : SourceDir) : option string :=
  match CHECK (is_source_absolute d) with
  | None => None
  | Some _ =>
      Some (string_view (value_ d) 1 (String.length (value_ d) - 1))
  end.

Definition SourceWithNoTrailingSlash (d : SourceDir) : string :=
  if (2 <? String.length (value_ d))%nat
  then string_view (value_ d) 0 (String.length (value_ d) - 1)
  else value_ d.

(** [operator==], [operator!=] and [operator<]: those of [std::string] on
    the values. *)
Definition operator_eq (a b : SourceDir) : bool :=
  String.eqb (value_ a) (value_ b).
Definition operator_ne (a b : SourceDir) : bool := negb (operator_eq a b).
Definition operator_lt (a b : SourceDir) : bool :=
  String.ltb (value_ a) (value_ b).

(** [std::hash<SourceDir>], given [std::hash<std::string>]. *)
Definition hash (hash_string : string -> Z) (v : SourceDir) : Z :=
  hash_string (value v).

(** The lexical order of strings, characters being compared by their
    codes: a proper prefix comes first, else the first character that
    differs decides. *)
Inductive lexical_lt : string -> string -> Prop :=
| lexical_lt_prefix (c : ascii) (s : string) :
    lexical_lt EmptyString (String c s)
| lexical_lt_head (c1 c2 : ascii) (s1 s2 : string) :
    (N_of_ascii c1 < N_of_ascii c2)%N ->
    lexical_lt (String c1 s1) (String c2 s2)
| lexical_lt_tail (c : ascii) (s1 s2 : string) :
    lexical_lt s1 s2 ->
    lexical_lt (String c s1) (String c s2).

(** The separator convention of directory values: empty (the null
    directory), or beginning and ending with a slash. *)
Definition ends_with_slash (s : string) : bool :=
  match String.length s with
  | O => false
  | S n => char_is s n "/"
  end.

Definition follows_convention (d : SourceDir) : bool :=
  is_null d || (char_is (value_ d) 0 "/" && ends_with_slash (value_ d)).

(** ** Resolution of relative paths

    [ResolveRelativeAs] is declared in the header and defined in
    [source_dir.cc], which is not part of the sources. *)

Section Resolve.

(** The dynamic value an error blames, opaque to this component. *)
Variable Value : Type.

(** The convention for system-absolute forms (drive letters), which the
    specification leaves to a policy. *)
Variable absolute_form_ok : string -> bool.

Inductive ErrKind : Type :=
| EmptyInput
| PathEscapesRoot
| MalformedAbsolutePath.

(** Modelled from the spec: the diagnostics object [Err], of which the
    sources have the forward declaration only.  An error is a (kind,
    blamed input, message) triple; [None] is an error object that has
    not been set. *)
Definition Err : Type := option (ErrKind * Value * string).

Definition Err_make (k : ErrKind) (blame : Value) (message : string)
  : Err :=
  Some (k, blame, message).

(** The pieces of a string between its slashes. *)
Fixpoint split_slash (piece s : string) : list string :=
  match s with
  | EmptyString => [piece]
  | String c rest =>
      if Ascii.eqb c "/"
      then piece :: split_slash EmptyString rest
      else split_slash (String.append piece (String c EmptyString)) rest
  end.

Definition segments (s : string) : list string :=
  List.filter (fun piece => negb (String.eqb piece EmptyString))
    (split_slash EmptyString s).

(** Lexical collapsing of "." and ".." segments; [done] holds the
    segments kept so far, last first.  [None]: a ".." went above the
    root. *)
Fixpoint collapse (done segs : list string) : option (list string) :=
  match segs with
  | [] => Some (rev done)
  | seg :: rest =>
      if String.eqb seg "."
      then collapse done rest
      else if String.eqb seg ".."
      then match done with
           | [] => None
           | _ :: done' => collapse done' rest
           end
      else collapse (seg :: done) rest
  end.

(** A file path is returned with no separator added, a directory path
    with the trailing separator enforced. *)
Definition with_kind (as_file : bool) (s : string) : string :=
  if as_file then s
  else if ends_with_slash s then s
  else String.append s "/".

(** The root a directory value is relative to: two slashes for a
    source-absolute one, one slash otherwise. *)
Definition root_of (d : SourceDir) : string :=
  if is_source_absolute d then "//"%string else "/"%string.

(** Modelled from the spec: [SourceDir::ResolveRelativeAs], defined in
    [source_dir.cc].  The result is the string returned, empty on error,
    and the error object as the call leaves it.  An empty [source_root]
    is one that was not supplied. *)
Definition ResolveRelativeAs (this : SourceDir) (as_file : bool)
    (blame_input_value : Value) (input_value : string) (err : Err)
    (source_root : string) : string * Err :=
  if (String.length input_value =? 0)%nat then
    (EmptyString,
     Err_make EmptyInput blame_input_value "invalid path: empty")
  else if is_source_absolute (mkSourceDir input_value) then
    match collapse [] (segments input_value) with
    | None =>
        (EmptyString,
         Err_make PathEscapesRoot blame_input_value
           "path escapes source root")
    | Some _ => (with_kind as_file input_value, err)
    end
  else if char_is input_value 0 "/" then
    if negb (absolute_form_ok input_value) then
      (EmptyString,
       Err_make MalformedAbsolutePath blame_input_value
         "malformed absolute path")
    else if negb (String.length source_root =? 0)%nat
            && String.prefix source_root input_value then
      (with_kind as_file
         (String.append "/"
            (String.substring (String.length source_root)
               (String.length input_value - String.length source_root)
               input_value)),
       err)
    else (with_kind as_file input_value, err)
  else
    match collapse []
            (segments (String.append (value_ this) input_value)) with
    | None =>
        (EmptyString,
         Err_make PathEscapesRoot blame_input_value
           "path escapes source root")
    | Some segs =>
        (with_kind as_file
           (String.append (root_of this) (String.concat "/" segs)),
         err)
    end.

(** The wrapper for directories, which the header defines inline. *)
Definition ResolveRelativeDir (this : SourceDir)
    (blame_input_value : Value) (input_value : string) (err : Err)
    (source_root : string) : SourceDir * Err :=
  let '(ret, err') :=
    ResolveRelativeAs this false blame_input_value input_value err
      source_root in
  ({| value_ := ret |}, err').

End Resolve.

Arguments Err_make {Value} k blame message.
Arguments ResolveRelativeAs {Value} absolute_form_ok this as_file
  blame_input_value input_value err source_root.
Arguments ResolveRelativeDir {Value} absolute_form_ok this
  blame_input_value input_value err source_root.

End source_dir.

(** * A collection of strings

    The element type instantiated with strings, for the concrete scenarios
    of the specification. *)

Module Example.

Definition SIZE_MAX : Z := 18446744073709551615.

Fixpoint string_hash_from (h : Z) (s : string) : Z :=
  match s with
  | EmptyString => h
  | String c rest =>
      string_hash_from
        ((31 * h + Z.of_N (N_of_ascii c)) mod (SIZE_MAX + 1)) rest
  end.

(** A hash of strings, standing for [std::hash<std::string>]. *)
Definition string_hash (s : string) : Z := string_hash_from 0 s.

(** A string that was moved from is left empty. *)
Definition moved_from_string (s : string) : string := EmptyString.

Definition strings_new : UniqueVector string := UniqueVector_new.

(** The collection after appending "x", "y", "x", "z". *)
Definition xyz : UniqueVector string :=
  Append SIZE_MAX String.eqb string_hash
    ["x"; "y"; "x"; "z"]%string strings_new.

End Example.

(** * Properties of [UniqueVector] *)

Section UniqueVectorProperties.

Variable SIZE_MAX : Z.
Variable T : Type.
Variable T_eq : T -> T -> bool.
Variable T_hash : T -> Z.
Variable moved_from : T -> T.

(** T's equality is an equivalence and equal values hash alike: what the
    collection requires of its element type. *)
Hypothesis T_eq_refl : forall x, T_eq x x = true.
Hypothesis T_eq_sym : forall x y, T_eq x y = true -> T_eq y x = true.
Hypothesis T_eq_trans :
  forall x y z, T_eq x y = true -> T_eq y z = true -> T_eq x z = true.
Hypothesis T_hash_eq : forall x y, T_eq x y = true -> T_hash x = T_hash y.

(** [size_t] has more than one value. *)
Hypothesis SIZE_MAX_pos : 0 < SIZE_MAX.

Local Abbreviation push_back := (push_back SIZE_MAX T_eq T_hash).
Local Abbreviation push_back_move :=
  (push_back_move SIZE_MAX T_eq T_hash moved_from).
Local Abbreviation Append := (Append SIZE_MAX T_eq T_hash).
Local Abbreviation IndexOf := (IndexOf SIZE_MAX T_eq T_hash).
Local Abbreviation reachable := (reachable SIZE_MAX T_eq T_hash moved_from).
Local Abbreviation represents := (represents SIZE_MAX T_eq T_hash).
Local Abbreviation invariant := (invariant T_eq T_hash).
Local Abbreviation stored := (stored T_eq).
Local Abbreviation distinct := (distinct T_eq).
Local Abbreviation committed := (committed SIZE_MAX T_hash).
Local Abbreviation HashSet_find := (HashSet_find T_eq).
Local Abbreviation HashSet_insert := (HashSet_insert T_eq).
Local Abbreviation matches := (matches T_eq).
Local Abbreviation first_occurrences := (first_occurrences T_eq).
Local Abbreviation probes := (probes T_hash).
Local Abbreviation absent := (absent T_eq).
Local Abbreviation covers := (covers T_eq).

Lemma T_eq_sym_false x y : T_eq x y = false -> T_eq y x = false.
Proof.
  intros H. destruct (T_eq y x) eqn:E; [|reflexivity].
  apply T_eq_sym in E. congruence.
Qed.

(** *** Reading and probing the index *)

Lemma probes_of_ptr (t : T) (v : list T) :
  probes (mkMemory t v)
    (UniquifyRef_of_ptr SIZE_MAX T_hash (mkMemory t v) addr_t) t.
Proof. split; reflexivity. Qed.

(** The reference committed for position [i] reads element [i], in any
    vector that kept the first elements where they were. *)
Lemma value_committed (t : T) (l v : list T) (i : nat) (x : T) :
  (forall j y, l !! j = Some y -> v !! j = Some y) ->
  l !! i = Some x ->
  value (mkMemory t v) (committed i x) = Some x.
Proof.
  intros Hpre Hi. unfold value; simpl.
  destruct (Z.ltb_spec (Z.of_nat i) 0) as [Hneg|_]; [lia|].
  rewrite Nat2Z.id. auto.
Qed.

Lemma matches_committed (t' : T) (l v : list T) key t (i : nat) (x : T) :
  (forall j y, l !! j = Some y -> v !! j = Some y) ->
  probes (mkMemory t' v) key t ->
  l !! i = Some x ->
  matches (mkMemory t' v) key (committed i x) = T_eq x t.
Proof.
  intros Hpre [Hval Hhash] Hi.
  unfold matches, UniquifyRef_eq, UniquifyRef_hash.
  rewrite (value_committed t' l v i x Hpre Hi), Hval, Hhash.
  unfold hash_val; simpl.
  destruct (T_eq x t) eqn:E.
  - rewrite (T_hash_eq _ _ E), Z.eqb_refl. reflexivity.
  - apply andb_false_r.
Qed.

Lemma find_absent (t' : T) (l v : list T) key t :
  (forall j y, l !! j = Some y -> v !! j = Some y) ->
  probes (mkMemory t' v) key t ->
  (forall i x, l !! i = Some x -> T_eq x t = false) ->
  HashSet_find (mkMemory t' v) (imap committed l) key = None.
Proof.
  intros Hpre Hkey Habs. unfold HashSet_find.
  destruct (find _ _) as [r|] eqn:Hfind; [|reflexivity].
  apply find_some in Hfind as [Hin Hm].
  apply list_elem_of_In, elem_of_lookup_imap in Hin as (i & x & -> & Hi).
  rewrite (matches_committed t' l v key t i x Hpre Hkey Hi) in Hm.
  rewrite (Habs i x Hi) in Hm. discriminate.
Qed.

Lemma find_present (t' : T) (l v : list T) key t (i : nat) (x : T) :
  (forall j y, l !! j = Some y -> v !! j = Some y) ->
  probes (mkMemory t' v) key t ->
  distinct l ->
  l !! i = Some x ->
  T_eq x t = true ->
  HashSet_find (mkMemory t' v) (imap committed l) key
  = Some (committed i x).
Proof.
  intros Hpre Hkey Hdis Hi Heq. unfold HashSet_find.
  destruct (find _ _) as [r|] eqn:Hfind.
  - apply find_some in Hfind as [Hin Hm].
    apply list_elem_of_In, elem_of_lookup_imap in Hin as (j & y & -> & Hj).
    rewrite (matches_committed t' l v key t j y Hpre Hkey Hj) in Hm.
    destruct (decide (i = j)) as [<-|Hne]; [congruence|].
    assert (T_eq x y = true) as Hxy by eauto.
    rewrite (Hdis i j x y Hne Hi Hj) in Hxy. discriminate.
  - exfalso.
    assert (In (committed i x) (imap committed l)) as Hin
      by (apply list_elem_of_In, elem_of_lookup_imap; eauto).
    apply (find_none _ _ Hfind) in Hin.
    rewrite (matches_committed t' l v key t i x Hpre Hkey Hi) in Hin.
    congruence.
Qed.

Lemma stored_or_not (v : T) (uv : UniqueVector T) :
  stored v uv \/ (forall i x, vector_ uv !! i = Some x -> T_eq x v = false).
Proof.
  unfold stored. induction (vector_ uv) as [|a l IH].
  - right. intros i x Hi. destruct i; discriminate.
  - destruct (T_eq a v) eqn:E.
    + left. exists 0%nat, a. auto.
    + destruct IH as [(i & x & Hi & Hx)|IH].
      * left. exists (S i), x. auto.
      * right. intros [|i] x Hi; simpl in Hi; [congruence|eauto].
Qed.

(** *** What [push_back] computes *)

Lemma stored_not_absent (v : T) (uv : UniqueVector T) :
  stored v uv -> absent v uv -> False.
Proof. intros (i & x & Hi & Hx) Habs. rewrite (Habs i x Hi) in Hx. discriminate. Qed.

Lemma last_index (l : list T) (t : T) :
  Z.of_nat (length l) <= SIZE_MAX ->
  size_t_sub SIZE_MAX (Z.of_nat (length (l ++ [t]))) 1 = Z.of_nat (length l).
Proof.
  intros Hle. unfold size_t_sub, static_cast_size_t.
  rewrite length_app; simpl.
  replace (Z.of_nat (length l + 1) - 1) with (Z.of_nat (length l)) by lia.
  apply Z.mod_small. lia.
Qed.

Lemma probe_present (t : T) (uv : UniqueVector T) (i : nat) (x : T) :
  set_ uv = imap committed (vector_ uv) ->
  distinct (vector_ uv) ->
  vector_ uv !! i = Some x ->
  T_eq x t = true ->
  HashSet_find (mkMemory t (vector_ uv)) (set_ uv)
    (UniquifyRef_of_ptr SIZE_MAX T_hash (mkMemory t (vector_ uv)) addr_t)
  = Some (committed i x).
Proof.
  intros Hset Hdis Hi Heq. rewrite Hset.
  apply (find_present t (vector_ uv) (vector_ uv) _ t i x);
    auto using probes_of_ptr.
Qed.

Lemma probe_absent (t : T) (uv : UniqueVector T) :
  represents uv ->
  absent t uv ->
  HashSet_find (mkMemory t (vector_ uv)) (set_ uv)
    (UniquifyRef_of_ptr SIZE_MAX T_hash (mkMemory t (vector_ uv)) addr_t)
  = None.
Proof.
  intros [Hset _ _] Habs. rewrite Hset.
  apply (find_absent t (vector_ uv) (vector_ uv) _ t);
    auto using probes_of_ptr.
Qed.

(** Inserting the reference for the element just appended really adds it:
    no reference of the index reads as an equal element.  [t'] is what the
    parameter holds by then, which no reference reads. *)
Lemma insert_committed (t t' : T) (l : list T) :
  (forall i x, l !! i = Some x -> T_eq x t = false) ->
  HashSet_insert (mkMemory t' (l ++ [t])) (imap committed l)
    (committed (length l) t)
  = imap committed (l ++ [t]).
Proof.
  intros Habs. unfold HashSet_insert.
  rewrite (find_absent t' l (l ++ [t]) _ t).
  - rewrite imap_app; simpl. by rewrite Nat.add_0_r.
  - intros j y Hj. by apply lookup_app_l_Some.
  - split; [|reflexivity].
    unfold value; simpl.
    destruct (Z.ltb_spec (Z.of_nat (length l)) 0); [lia|].
    rewrite Nat2Z.id. apply list_lookup_middle. reflexivity.
  - exact Habs.
Qed.

Lemma push_back_present (t : T) (uv : UniqueVector T) :
  represents uv -> stored t uv -> push_back t uv = (false, uv).
Proof.
  intros Hrep (i & x & Hi & Heq). unfold push_back.
  destruct Hrep as [Hset Hdis _].
  by rewrite (probe_present t uv i x Hset Hdis Hi Heq).
Qed.

Lemma push_back_absent (t : T) (uv : UniqueVector T) :
  represents uv ->
  absent t uv ->
  push_back t uv
  = (true, mkUniqueVector (imap committed (vector_ uv ++ [t]))
             (vector_ uv ++ [t])).
Proof.
  intros Hrep Habs. unfold push_back.
  rewrite (probe_absent t uv Hrep Habs).
  destruct Hrep as [Hset _ Hsize].
  rewrite (last_index _ _ Hsize), Hset.
  change (UniquifyRef_of_index_hash SIZE_MAX addr_vector_
            (Z.of_nat (length (vector_ uv))) _)
    with (committed (length (vector_ uv)) t).
  by rewrite insert_committed.
Qed.

Lemma push_back_move_present (t : T) (uv : UniqueVector T) :
  represents uv -> stored t uv -> push_back_move t uv = (false, uv, t).
Proof.
  intros Hrep (i & x & Hi & Heq). unfold push_back_move.
  destruct Hrep as [Hset Hdis _].
  by rewrite (probe_present t uv i x Hset Hdis Hi Heq).
Qed.

Lemma push_back_move_absent (t : T) (uv : UniqueVector T) :
  represents uv ->
  absent t uv ->
  push_back_move t uv
  = (true, mkUniqueVector (imap committed (vector_ uv ++ [t]))
             (vector_ uv ++ [t]), moved_from t).
Proof.
  intros Hrep Habs. unfold push_back_move.
  rewrite (probe_absent t uv Hrep Habs).
  destruct Hrep as [Hset _ Hsize].
  rewrite (last_index _ _ Hsize), Hset.
  change (UniquifyRef_of_index_hash SIZE_MAX addr_vector_
            (Z.of_nat (length (vector_ uv))) _)
    with (committed (length (vector_ uv)) t).
  by rewrite insert_committed.
Qed.

(** *** The representation invariant is kept *)

Lemma distinct_snoc (l : list T) (t : T) :
  distinct l ->
  (forall i x, l !! i = Some x -> T_eq x t = false) ->
  distinct (l ++ [t]).
Proof.
  intros Hdis Habs i j x y Hne Hi Hj.
  apply lookup_snoc_Some in Hi as [[_ Hi]|[Hi <-]];
    apply lookup_snoc_Some in Hj as [[_ Hj]|[Hj <-]].
  - eauto.
  - eauto.
  - apply T_eq_sym_false. eauto.
  - congruence.
Qed.

Lemma represents_new : represents UniqueVector_new.
Proof.
  split; [reflexivity| |unfold size; simpl; lia].
  intros i j x y _ Hi. destruct i; discriminate.
Qed.

Lemma size_push_back (t : T) (uv : UniqueVector T) :
  size uv <= size (snd (push_back t uv)).
Proof.
  unfold push_back. destruct (HashSet_find _ _ _); simpl; [lia|].
  unfold size; simpl. rewrite length_app. lia.
Qed.

Lemma size_Append (items : list T) (uv : UniqueVector T) :
  size uv <= size (Append items uv).
Proof.
  revert uv. induction items as [|a items IH]; intros uv; simpl; [lia|].
  etransitivity; [apply (size_push_back a)|apply IH].
Qed.

Lemma size_push_back_le (t : T) (uv : UniqueVector T) :
  size (snd (push_back t uv)) <= size uv + 1.
Proof.
  unfold push_back. destruct (HashSet_find _ _ _); simpl; [lia|].
  unfold size; simpl. rewrite length_app; simpl. lia.
Qed.

Lemma size_Append_le (items : list T) (uv : UniqueVector T) :
  size (Append items uv) <= size uv + Z.of_nat (length items).
Proof.
  revert uv. induction items as [|a items IH]; intros uv; [simpl; lia|].
  change (Append (a :: items) uv)
    with (Append items (snd (push_back a uv))).
  specialize (IH (snd (push_back a uv))).
  pose proof (size_push_back_le a uv). simpl length. lia.
Qed.

Lemma represents_push_back (t : T) (uv : UniqueVector T) :
  represents uv ->
  size (snd (push_back t uv)) <= SIZE_MAX ->
  represents (snd (push_back t uv)).
Proof.
  intros Hrep. destruct (stored_or_not t uv) as [Hin|Habs].
  - by rewrite (push_back_present t uv Hrep Hin).
  - rewrite (push_back_absent t uv Hrep Habs); simpl. intros Hsize.
    split; simpl; [reflexivity| |exact Hsize].
    apply distinct_snoc; [apply Hrep|exact Habs].
Qed.

Lemma push_back_move_push_back (t : T) (uv : UniqueVector T) :
  represents uv -> fst (push_back_move t uv) = push_back t uv.
Proof.
  intros Hrep. destruct (stored_or_not t uv) as [Hin|Habs].
  - by rewrite (push_back_move_present t uv Hrep Hin),
      (push_back_present t uv Hrep Hin).
  - by rewrite (push_back_move_absent t uv Hrep Habs),
      (push_back_absent t uv Hrep Habs).
Qed.

Lemma represents_Append (items : list T) (uv : UniqueVector T) :
  represents uv ->
  size (Append items uv) <= SIZE_MAX ->
  represents (Append items uv).
Proof.
  revert uv. induction items as [|a items IH]; intros uv Hrep Hsize;
    simpl in *; [exact Hrep|].
  apply IH; [|exact Hsize].
  apply represents_push_back; [exact Hrep|].
  etransitivity; [apply size_Append|exact Hsize].
Qed.

Lemma reachable_represents (uv : UniqueVector T) :
  reachable uv -> represents uv.
Proof.
  induction 1 as [|t uv _ IH Hsize|t uv _ IH Hsize|items uv _ IH Hsize
                 |uv _ _|s uv _ IH].
  - apply represents_new.
  - by apply represents_push_back.
  - rewrite (push_back_move_push_back t uv IH) in *.
    by apply represents_push_back.
  - by apply represents_Append.
  - apply represents_new.
  - destruct IH as [Hset Hdis Hsize]. by split.
Qed.

Lemma represents_invariant (uv : UniqueVector T) :
  represents uv -> invariant uv.
Proof.
  intros [Hset Hdis Hsize]. split; [exact Hdis|]. rewrite Hset. split.
  - apply length_imap.
  - intros r (i & x & -> & Hi)%elem_of_lookup_imap.
    pose proof (lookup_lt_Some _ _ _ Hi) as Hlt.
    repeat split; simpl; [lia|unfold size; lia|].
    exists x. split; [|reflexivity]. unfold at_index.
    destruct (Z.ltb_spec (Z.of_nat i) 0); [lia|]. by rewrite Nat2Z.id.
Qed.

(** *** Storage order *)

Lemma covers_vector (uv : UniqueVector T) : covers (vector_ uv) uv.
Proof.
  intros z. rewrite existsb_exists. unfold stored. split.
  - intros (x & (i & Hi)%list_elem_of_In%list_elem_of_lookup & Hx). eauto.
  - intros (i & x & Hi & Hx). exists x. split; [|exact Hx].
    apply list_elem_of_In, list_elem_of_lookup. eauto.
Qed.

Lemma covers_skip (earlier : list T) (uv : UniqueVector T) (a : T) :
  covers earlier uv -> stored a uv -> covers (earlier ++ [a]) uv.
Proof.
  intros Hcov (i & x & Hi & Hxa) z.
  rewrite existsb_app, orb_true_iff; simpl. rewrite orb_false_r. split.
  - intros [Hz|Haz]; [by apply Hcov|]. exists i, x. eauto.
  - intros Hz. left. by apply Hcov.
Qed.

Lemma covers_keep (earlier : list T) (uv : UniqueVector T) (a : T) s :
  covers earlier uv ->
  covers (earlier ++ [a]) (mkUniqueVector s (vector_ uv ++ [a])).
Proof.
  intros Hcov z.
  rewrite existsb_app, orb_true_iff; simpl. rewrite orb_false_r. split.
  - intros [(i & x & Hi & Hx)%Hcov|Haz].
    + exists i, x. split; [|exact Hx]. by apply lookup_app_l_Some.
    + exists (length (vector_ uv)), a. split; [|exact Haz].
      by apply list_lookup_middle.
  - intros (i & x & Hi & Hx). simpl in Hi.
    apply lookup_snoc_Some in Hi as [[_ Hi]|[_ <-]]; [left|by right].
    apply Hcov. exists i, x. auto.
Qed.

Lemma Append_first_occurrences (items : list T) :
  forall (uv : UniqueVector T) (earlier : list T),
    represents uv ->
    covers earlier uv ->
    size uv + Z.of_nat (length items) <= SIZE_MAX ->
    vector_ (Append items uv)
    = vector_ uv ++ first_occurrences earlier items.
Proof.
  induction items as [|a items IH]; intros uv earlier Hrep Hcov Hsize.
  - simpl. by rewrite app_nil_r.
  - change (Append (a :: items) uv)
      with (Append items (snd (push_back a uv))).
    simpl in Hsize. simpl first_occurrences.
    destruct (stored_or_not a uv) as [Hin|Habs].
    + rewrite (push_back_present a uv Hrep Hin); simpl.
      rewrite (proj2 (Hcov a) Hin).
      apply IH; [exact Hrep|by apply covers_skip|lia].
    + assert (existsb (fun y => T_eq y a) earlier = false) as ->.
      { destruct (existsb _ earlier) eqn:E; [|reflexivity].
        destruct (stored_not_absent a uv); [by apply Hcov|exact Habs]. }
      pose proof (represents_push_back a uv Hrep) as Hrep'.
      rewrite (push_back_absent a uv Hrep Habs) in *; simpl in *.
      rewrite (IH _ (earlier ++ [a])); simpl.
      * by rewrite <- app_assoc.
      * apply Hrep'. unfold size; simpl. rewrite length_app; simpl.
        unfold size in Hsize. lia.
      * by apply covers_keep.
      * unfold size in *; simpl. rewrite length_app; simpl. lia.
Qed.

(** *** The contract of the collection *)

(** C1: in every state reachable by appends, [push_back v] returns false
    and leaves the sequence and the index as they were when an element
    equal to [v] is stored; otherwise it returns true, stores [v] at
    position [size()] and makes the size one more, and appending [v]
    again returns false and changes nothing.  No two stored elements are
    equal, and the elements appended from a range are stored after the old
    ones in the order of their first occurrence. *)
Theorem push_back_contract (uv : UniqueVector T) (v : T) :
  reachable uv ->
  (stored v uv -> push_back v uv = (false, uv))
  /\ (~ stored v uv ->
      fst (push_back v uv) = true
      /\ vector_ (snd (push_back v uv)) = vector_ uv ++ [v]
      /\ at_index (snd (push_back v uv)) (size uv) = Some v
      /\ size (snd (push_back v uv)) = size uv + 1
      /\ push_back v (snd (push_back v uv))
         = (false, snd (push_back v uv)))
  /\ distinct (vector_ uv)
  /\ (forall items : list T,
        size uv + Z.of_nat (length items) <= SIZE_MAX ->
        vector_ (Append items uv)
        = vector_ uv ++ first_occurrences (vector_ uv) items).
Proof.
  intros Hrep%reachable_represents. repeat split.
  - by apply push_back_present.
  - destruct (stored_or_not v uv) as [Hin|Habs]; [contradiction|].
    by rewrite (push_back_absent v uv Hrep Habs).
  - destruct (stored_or_not v uv) as [Hin|Habs]; [contradiction|].
    by rewrite (push_back_absent v uv Hrep Habs).
  - destruct (stored_or_not v uv) as [Hin|Habs]; [contradiction|].
    rewrite (push_back_absent v uv Hrep Habs); simpl. unfold at_index, size.
    destruct (Z.ltb_spec (Z.of_nat (length (vector_ uv))) 0); [lia|].
    rewrite Nat2Z.id. by apply list_lookup_middle.
  - destruct (stored_or_not v uv) as [Hin|Habs]; [contradiction|].
    rewrite (push_back_absent v uv Hrep Habs); simpl. unfold size; simpl.
    rewrite length_app; simpl. lia.
  - destruct (stored_or_not v uv) as [Hin|Habs]; [contradiction|].
    rewrite (push_back_absent v uv Hrep Habs); simpl. unfold push_back.
    rewrite (probe_present v _ (length (vector_ uv)) v); simpl; auto.
    + apply distinct_snoc; [apply Hrep|exact Habs].
    + by apply list_lookup_middle.
  - apply Hrep.
  - intros items Hsize.
    apply Append_first_occurrences; auto using covers_vector.
Qed.

(** C2: in every reachable state, [IndexOf v] is the position of the
    stored element equal to [v], which is where it was put by the first
    append of such a value that succeeded; when no stored element is equal
    to [v] it is [(size_t)(-1)], the largest [size_t], which is not a
    position of the sequence. *)
Theorem IndexOf_position (uv : UniqueVector T) (v : T) :
  reachable uv ->
  (forall (i : nat) (x : T),
     vector_ uv !! i = Some x -> T_eq x v = true ->
     IndexOf v uv = Z.of_nat i)
  /\ (forall (items : list T) (i : nat) (x : T),
        size uv + Z.of_nat (length items) <= SIZE_MAX ->
        (vector_ uv ++ first_occurrences (vector_ uv) items) !! i = Some x ->
        T_eq x v = true ->
        IndexOf v (Append items uv) = Z.of_nat i)
  /\ (~ stored v uv ->
      IndexOf v uv = static_cast_size_t SIZE_MAX (-1)
      /\ IndexOf v uv = SIZE_MAX
      /\ size uv <= IndexOf v uv
      /\ at_index uv (IndexOf v uv) = None).
Proof.
  intros Hrep%reachable_represents.
  assert (forall uv' (i : nat) (x : T),
            represents uv' -> vector_ uv' !! i = Some x ->
            T_eq x v = true -> IndexOf v uv' = Z.of_nat i) as Hhit.
  { intros uv' i x Hrep' Hi Hx. unfold IndexOf.
    destruct Hrep' as [Hset Hdis _].
    by rewrite (probe_present v uv' i x Hset Hdis Hi Hx). }
  split; [eauto|]. split.
  - intros items i x Hsize Hi Hx. apply (Hhit _ i x); [| |exact Hx].
    + apply represents_Append; [exact Hrep|].
      pose proof (size_Append_le items uv). lia.
    + rewrite (Append_first_occurrences items uv (vector_ uv));
        auto using covers_vector.
  - intros Hnot.
    destruct (stored_or_not v uv) as [Hin|Habs]; [contradiction|].
    assert (IndexOf v uv = static_cast_size_t SIZE_MAX (-1)) as Hmiss.
    { unfold IndexOf. by rewrite (probe_absent v uv Hrep Habs). }
    assert (static_cast_size_t SIZE_MAX (-1) = SIZE_MAX) as Hmax.
    { unfold static_cast_size_t.
      rewrite <- (Z.mod_unique (-1) (SIZE_MAX + 1) (-1) SIZE_MAX); lia. }
    destruct Hrep as [_ _ Hsize].
    rewrite Hmiss, Hmax. repeat split; [exact Hsize|].
    unfold at_index. destruct (Z.ltb_spec SIZE_MAX 0); [reflexivity|].
    apply lookup_ge_None. unfold size in Hsize. lia.
Qed.

(** C3: the invariant of the collection holds for a freshly constructed
    collection and after every operation ([push_back] in both overloads,
    [Append], [clear], [reserve]): elements at different positions are not
    equal, the index holds as many references as the sequence holds
    elements, and every reference of the index is a (vector, index)
    reference whose index is a position of the sequence and whose cached
    hash is the hash of the element there. *)
Theorem invariant_reachable (uv : UniqueVector T) :
  reachable uv ->
  (forall (i j : nat) (x y : T),
     i <> j -> vector_ uv !! i = Some x -> vector_ uv !! j = Some y ->
     T_eq x y = false)
  /\ length (set_ uv) = length (vector_ uv)
  /\ (forall r : UniquifyRef,
        r ∈ set_ uv ->
        value_ r = T_nullptr
        /\ vect_ r = addr_vector_
        /\ 0 <= index_ r < size uv
        /\ exists x : T,
             at_index uv (index_ r) = Some x /\ hash_val_ r = T_hash x).
Proof.
  intros Hreach. apply (represents_invariant uv).
  by apply reachable_represents.
Qed.

(** C5: in every reachable state the move overload of [push_back] returns
    the same boolean and leaves the same sequence and the same index as
    the copy overload.  When the value is appended, the reference
    committed for it reads, after the move, as the value that was stored
    and carries the hash of that value, whatever the moved-from object
    holds; when it is not appended the object is not moved from. *)
Theorem push_back_move_equivalent (uv : UniqueVector T) (v : T) :
  reachable uv ->
  fst (push_back_move v uv) = push_back v uv
  /\ (stored v uv -> snd (push_back_move v uv) = v)
  /\ (~ stored v uv ->
      snd (push_back_move v uv) = moved_from v
      /\ exists r : UniquifyRef,
           r ∈ set_ (snd (fst (push_back_move v uv)))
           /\ index r = size uv
           /\ value (mkMemory (moved_from v)
                       (vector_ (snd (fst (push_back_move v uv))))) r
              = Some v
           /\ hash_val r = T_hash v).
Proof.
  intros Hrep%reachable_represents.
  split; [by apply push_back_move_push_back|]. split.
  - intros Hin. by rewrite (push_back_move_present v uv Hrep Hin).
  - intros Hnot.
    destruct (stored_or_not v uv) as [Hin|Habs]; [contradiction|].
    rewrite (push_back_move_absent v uv Hrep Habs); simpl.
    split; [reflexivity|].
    exists (committed (length (vector_ uv)) v). repeat split.
    + apply elem_of_lookup_imap_2. by apply list_lookup_middle.
    + apply (value_committed _ (vector_ uv ++ [v])); [auto|].
      by apply list_lookup_middle.
Qed.

(** *** Stored elements stay where they are *)

Lemma push_back_keeps (t : T) (uv : UniqueVector T) (i : nat) (x : T) :
  vector_ uv !! i = Some x ->
  vector_ (snd (push_back t uv)) !! i = Some x.
Proof.
  intros Hi. unfold push_back.
  destruct (HashSet_find _ _ _); simpl; [exact Hi|].
  by apply lookup_app_l_Some.
Qed.

Lemma push_back_move_vector (t : T) (uv : UniqueVector T) :
  vector_ (snd (fst (push_back_move t uv))) = vector_ (snd (push_back t uv)).
Proof.
  unfold push_back_move, push_back.
  by destruct (HashSet_find _ _ _).
Qed.

Lemma Append_keeps (items : list T) :
  forall (uv : UniqueVector T) (i : nat) (x : T),
    vector_ uv !! i = Some x -> vector_ (Append items uv) !! i = Some x.
Proof.
  induction items as [|a items IH]; intros uv i x Hi; [exact Hi|].
  apply (IH (snd (push_back a uv))). by apply push_back_keeps.
Qed.

Lemma stored_push_back (t w : T) (uv : UniqueVector T) :
  stored w uv -> stored w (snd (push_back t uv)).
Proof.
  intros (i & x & Hi & Hx). exists i, x. split; [|exact Hx].
  by apply push_back_keeps.
Qed.

Lemma stored_Append (items : list T) (w : T) (uv : UniqueVector T) :
  stored w uv -> stored w (Append items uv).
Proof.
  intros (i & x & Hi & Hx). exists i, x. split; [|exact Hx].
  by apply Append_keeps.
Qed.

(** X1: no append removes or moves an element: what is stored at a
    position is still stored there after [push_back], in either overload,
    and after [Append], whatever the element type and the state. *)
Theorem stored_elements_stay (uv : UniqueVector T) (i : nat) (x : T) :
  vector_ uv !! i = Some x ->
  (forall t : T, vector_ (snd (push_back t uv)) !! i = Some x)
  /\ (forall t : T, vector_ (snd (fst (push_back_move t uv))) !! i = Some x)
  /\ (forall items : list T, vector_ (Append items uv) !! i = Some x).
Proof.
  intros Hi. split; [|split].
  - intros t. by apply push_back_keeps.
  - intros t. rewrite push_back_move_vector. by apply push_back_keeps.
  - intros items. by apply Append_keeps.
Qed.

(** *** Looking up and reading back *)

Lemma IndexOf_present (v : T) (uv : UniqueVector T) (i : nat) (x : T) :
  represents uv ->
  vector_ uv !! i = Some x ->
  T_eq x v = true ->
  IndexOf v uv = Z.of_nat i.
Proof.
  intros [Hset Hdis _] Hi Hx. unfold IndexOf.
  by rewrite (probe_present v uv i x Hset Hdis Hi Hx).
Qed.

Lemma sentinel_is_SIZE_MAX : static_cast_size_t SIZE_MAX (-1) = SIZE_MAX.
Proof.
  unfold static_cast_size_t.
  rewrite <- (Z.mod_unique (-1) (SIZE_MAX + 1) (-1) SIZE_MAX); lia.
Qed.

Lemma IndexOf_absent (v : T) (uv : UniqueVector T) :
  represents uv -> absent v uv -> IndexOf v uv = SIZE_MAX.
Proof.
  intros Hrep Habs. unfold IndexOf.
  rewrite (probe_absent v uv Hrep Habs). apply sentinel_is_SIZE_MAX.
Qed.

Lemma at_index_nat (uv : UniqueVector T) (i : nat) :
  at_index uv (Z.of_nat i) = vector_ uv !! i.
Proof.
  unfold at_index. destruct (Z.ltb_spec (Z.of_nat i) 0); [lia|].
  by rewrite Nat2Z.id.
Qed.

(** X2: in a reachable state [IndexOf] and [operator[]] are inverse to each
    other: the index found for a stored value is a position of the
    sequence and the element there is equal to the value; the element read
    at a position is found at that position; and the result is the
    sentinel exactly when no equal element is stored. *)
Theorem IndexOf_read_back (uv : UniqueVector T) (v : T) :
  reachable uv ->
  (stored v uv ->
   0 <= IndexOf v uv < size uv
   /\ exists x : T, at_index uv (IndexOf v uv) = Some x /\ T_eq x v = true)
  /\ (forall (i : nat) (x : T),
        vector_ uv !! i = Some x -> IndexOf x uv = Z.of_nat i)
  /\ (IndexOf v uv = SIZE_MAX <-> ~ stored v uv).
Proof.
  intros Hrep%reachable_represents. split; [|split].
  - intros (i & x & Hi & Hx).
    rewrite (IndexOf_present v uv i x Hrep Hi Hx), at_index_nat.
    pose proof (lookup_lt_Some _ _ _ Hi). unfold size. split; [lia|eauto].
  - intros i x Hi. by apply (IndexOf_present x uv i x).
  - split.
    + intros Hmax (i & x & Hi & Hx).
      rewrite (IndexOf_present v uv i x Hrep Hi Hx) in Hmax.
      pose proof (lookup_lt_Some _ _ _ Hi).
      destruct Hrep as [_ _ Hsize]. unfold size in Hsize. lia.
    + intros Hnot. apply IndexOf_absent; [exact Hrep|].
      destruct (stored_or_not v uv) as [Hin|Habs]; [contradiction|exact Habs].
Qed.

Lemma push_back_stores (t : T) (uv : UniqueVector T) :
  represents uv -> stored t (snd (push_back t uv)).
Proof.
  intros Hrep. destruct (stored_or_not t uv) as [Hin|Habs].
  - by rewrite (push_back_present t uv Hrep Hin).
  - rewrite (push_back_absent t uv Hrep Habs); simpl.
    exists (length (vector_ uv)), t. split; [|apply T_eq_refl].
    by apply list_lookup_middle.
Qed.

(** X3: in a reachable state with room for one more element, a value that
    was just offered to [push_back] is found by [IndexOf]: at the old
    [size()] when it was appended, where it already was when it was not;
    the index is a position of the sequence and holds an equal element. *)
Theorem push_back_then_IndexOf (uv : UniqueVector T) (v : T) :
  reachable uv ->
  size (snd (push_back v uv)) <= SIZE_MAX ->
  IndexOf v (snd (push_back v uv))
  = (if fst (push_back v uv) then size uv else IndexOf v uv)
  /\ 0 <= IndexOf v (snd (push_back v uv)) < size (snd (push_back v uv))
  /\ exists x : T,
       at_index (snd (push_back v uv)) (IndexOf v (snd (push_back v uv)))
       = Some x
       /\ T_eq x v = true.
Proof.
  intros Hrep%reachable_represents Hsize.
  pose proof (represents_push_back v uv Hrep Hsize) as Hrep'.
  destruct (push_back_stores v uv Hrep) as (i & x & Hi & Hx).
  pose proof (IndexOf_present v _ i x Hrep' Hi Hx) as Hidx.
  pose proof (lookup_lt_Some _ _ _ Hi) as Hlt.
  split; [|split].
  - destruct (stored_or_not v uv) as [Hin|Habs].
    + by rewrite (push_back_present v uv Hrep Hin).
    + rewrite Hidx. clear Hidx Hrep' Hsize.
      rewrite (push_back_absent v uv Hrep Habs) in *; simpl in *.
      apply lookup_snoc_Some in Hi as [[Hlt' Hi]|[-> _]]; [|reflexivity].
      rewrite (Habs i x Hi) in Hx. discriminate.
  - rewrite Hidx. unfold size. lia.
  - exists x. by rewrite Hidx, at_index_nat.
Qed.

(** X4: an index handed out by [IndexOf] stays good: in a reachable state,
    the index of a stored value is the same after any later [push_back] or
    [Append] that fits the vector. *)
Theorem IndexOf_stable (uv : UniqueVector T) (w : T) :
  reachable uv ->
  stored w uv ->
  (forall v : T,
     size (snd (push_back v uv)) <= SIZE_MAX ->
     IndexOf w (snd (push_back v uv)) = IndexOf w uv)
  /\ (forall items : list T,
        size (Append items uv) <= SIZE_MAX ->
        IndexOf w (Append items uv) = IndexOf w uv).
Proof.
  intros Hrep%reachable_represents (i & x & Hi & Hx).
  rewrite (IndexOf_present w uv i x Hrep Hi Hx). split.
  - intros v Hsize.
    apply (IndexOf_present w _ i x); [|by apply push_back_keeps|exact Hx].
    by apply represents_push_back.
  - intros items Hsize.
    apply (IndexOf_present w _ i x); [|by apply Append_keeps|exact Hx].
    by apply represents_Append.
Qed.

(** *** Ranges *)

Lemma push_back_origin (t : T) (uv : UniqueVector T) (i : nat) (x : T) :
  vector_ (snd (push_back t uv)) !! i = Some x ->
  vector_ uv !! i = Some x \/ x = t.
Proof.
  unfold push_back. destruct (HashSet_find _ _ _); simpl; [by left|].
  intros [[_ Hi]|[_ ->]]%lookup_snoc_Some; [by left|by right].
Qed.

Lemma Append_origin (items : list T) :
  forall (uv : UniqueVector T) (i : nat) (x : T),
    vector_ (Append items uv) !! i = Some x ->
    vector_ uv !! i = Some x \/ x ∈ items.
Proof.
  induction items as [|a items IH]; intros uv i x Hi; [by left|].
  destruct (IH (snd (push_back a uv)) i x Hi) as [Hi'|Hin].
  - destruct (push_back_origin a uv i x Hi') as [Hi''| ->]; [by left|].
    right. apply list_elem_of_here.
  - right. by apply list_elem_of_further.
Qed.

Lemma Append_stores (items : list T) :
  forall uv : UniqueVector T,
    represents uv ->
    size (Append items uv) <= SIZE_MAX ->
    forall x : T, x ∈ items -> stored x (Append items uv).
Proof.
  induction items as [|a items IH]; intros uv Hrep Hsize x Hin.
  - by apply elem_of_nil in Hin.
  - change (Append (a :: items) uv)
      with (Append items (snd (push_back a uv))) in *.
    apply elem_of_cons in Hin as [->|Hin].
    + by apply stored_Append, push_back_stores.
    + apply IH; [|exact Hsize|exact Hin].
      apply represents_push_back; [exact Hrep|].
      etransitivity; [apply size_Append|exact Hsize].
Qed.

Lemma Append_all_stored (items : list T) (uv : UniqueVector T) :
  represents uv ->
  (forall x : T, x ∈ items -> stored x uv) ->
  Append items uv = uv.
Proof.
  intros Hrep. induction items as [|a items IH]; intros Hall; [reflexivity|].
  change (Append (a :: items) uv)
    with (Append items (snd (push_back a uv))).
  rewrite (push_back_present a uv Hrep); simpl.
  - apply IH. intros x Hin. by apply Hall, list_elem_of_further.
  - apply Hall, list_elem_of_here.
Qed.

(** X5: after [Append] of a range that fits the vector, starting in a
    reachable state, every value of the range is stored and found by
    [IndexOf]; every stored element was stored before or comes from the
    range; and the size grew by at most the length of the range. *)
Theorem Append_membership (uv : UniqueVector T) (items : list T) :
  reachable uv ->
  size (Append items uv) <= SIZE_MAX ->
  (forall x : T,
     x ∈ items ->
     stored x (Append items uv)
     /\ 0 <= IndexOf x (Append items uv) < size (Append items uv))
  /\ (forall (i : nat) (x : T),
        vector_ (Append items uv) !! i = Some x ->
        vector_ uv !! i = Some x \/ x ∈ items)
  /\ size uv <= size (Append items uv) <= size uv + Z.of_nat (length items).
Proof.
  intros Hrep%reachable_represents Hsize. split; [|split].
  - intros x Hin.
    pose proof (Append_stores items uv Hrep Hsize x Hin) as Hst.
    split; [exact Hst|]. destruct Hst as (i & y & Hi & Hy).
    rewrite (IndexOf_present x _ i y); [|by apply represents_Append|done..].
    pose proof (lookup_lt_Some _ _ _ Hi). unfold size. lia.
  - apply Append_origin.
  - split; [apply size_Append|apply size_Append_le].
Qed.

(** X6: appending a range a second time changes nothing, and so does
    appending any values that are all stored: in a reachable state the
    sequence and the index stay as they are. *)
Theorem Append_idempotent (uv : UniqueVector T) (items : list T) :
  reachable uv ->
  size (Append items uv) <= SIZE_MAX ->
  Append items (Append items uv) = Append items uv
  /\ Append (items ++ items) uv = Append items uv
  /\ (forall again : list T,
        (forall x : T, x ∈ again -> stored x (Append items uv)) ->
        Append again (Append items uv) = Append items uv).
Proof.
  intros Hrep%reachable_represents Hsize.
  pose proof (represents_Append items uv Hrep Hsize) as Hrep'.
  pose proof (Append_stores items uv Hrep Hsize) as Hall.
  split; [by apply Append_all_stored|]. split.
  - unfold Append. rewrite fold_left_app. by apply Append_all_stored.
  - intros again Hagain. by apply Append_all_stored.
Qed.

(** *** The order of the hash set *)

Lemma find_absent_any (t' : T) (l v : list T) (s : HashSet) key t :
  (forall r, r ∈ s -> r ∈ imap committed l) ->
  (forall j y, l !! j = Some y -> v !! j = Some y) ->
  probes (mkMemory t' v) key t ->
  (forall i x, l !! i = Some x -> T_eq x t = false) ->
  HashSet_find (mkMemory t' v) s key = None.
Proof.
  intros Hsub Hpre Hkey Habs. unfold HashSet_find.
  destruct (find _ _) as [r|] eqn:Hfind; [|reflexivity].
  apply find_some in Hfind as [Hin Hm].
  apply list_elem_of_In, Hsub, elem_of_lookup_imap in Hin as (i & x & -> & Hi).
  rewrite (matches_committed t' l v key t i x Hpre Hkey Hi) in Hm.
  rewrite (Habs i x Hi) in Hm. discriminate.
Qed.

Lemma find_present_any (t' : T) (l v : list T) (s : HashSet) key t
    (i : nat) (x : T) :
  (forall r, r ∈ s <-> r ∈ imap committed l) ->
  (forall j y, l !! j = Some y -> v !! j = Some y) ->
  probes (mkMemory t' v) key t ->
  distinct l ->
  l !! i = Some x ->
  T_eq x t = true ->
  HashSet_find (mkMemory t' v) s key = Some (committed i x).
Proof.
  intros Hsame Hpre Hkey Hdis Hi Heq. unfold HashSet_find.
  destruct (find _ _) as [r|] eqn:Hfind.
  - apply find_some in Hfind as [Hin Hm].
    apply list_elem_of_In, Hsame, elem_of_lookup_imap in Hin
      as (j & y & -> & Hj).
    rewrite (matches_committed t' l v key t j y Hpre Hkey Hj) in Hm.
    destruct (decide (i = j)) as [<-|Hne]; [congruence|].
    assert (T_eq x y = true) as Hxy by eauto.
    rewrite (Hdis i j x y Hne Hi Hj) in Hxy. discriminate.
  - exfalso.
    assert (In (committed i x) s) as Hin
      by (apply list_elem_of_In, Hsame, elem_of_lookup_imap; eauto).
    apply (find_none _ _ Hfind) in Hin.
    rewrite (matches_committed t' l v key t i x Hpre Hkey Hi) in Hin.
    congruence.
Qed.

(** X7: what [IndexOf] and [push_back] return does not depend on the order
    in which the hash set holds its references.  With the references of a
    reachable state held in any other order, [IndexOf] gives the same
    index, and [push_back] the same boolean, the same sequence and the same
    references. *)
Theorem set_order_irrelevant (uv : UniqueVector T) (s : HashSet) (v : T) :
  reachable uv ->
  s ≡ₚ set_ uv ->
  IndexOf v (mkUniqueVector s (vector_ uv)) = IndexOf v uv
  /\ fst (push_back v (mkUniqueVector s (vector_ uv)))
     = fst (push_back v uv)
  /\ vector_ (snd (push_back v (mkUniqueVector s (vector_ uv))))
     = vector_ (snd (push_back v uv))
  /\ set_ (snd (push_back v (mkUniqueVector s (vector_ uv))))
     ≡ₚ set_ (snd (push_back v uv)).
Proof.
  intros Hrep%reachable_represents Hperm.
  pose proof Hrep as [Hset Hdis Hsize]. rewrite Hset in Hperm.
  assert (forall r, r ∈ s <-> r ∈ imap committed (vector_ uv)) as Hsame
    by (intros r; by rewrite Hperm).
  destruct (stored_or_not v uv) as [Hin|Habs].
  - pose proof Hin as (i & x & Hi & Hx).
    assert (HashSet_find (mkMemory v (vector_ uv)) s
              (UniquifyRef_of_ptr SIZE_MAX T_hash
                 (mkMemory v (vector_ uv)) addr_t)
            = Some (committed i x)) as Hfind
      by (apply (find_present_any v (vector_ uv) (vector_ uv) s _ v i x);
          auto using probes_of_ptr).
    rewrite (push_back_present v uv Hrep Hin),
      (IndexOf_present v uv i x Hrep Hi Hx).
    unfold IndexOf, push_back; simpl. rewrite Hfind; simpl.
    by rewrite Hset.
  - assert (HashSet_find (mkMemory v (vector_ uv)) s
              (UniquifyRef_of_ptr SIZE_MAX T_hash
                 (mkMemory v (vector_ uv)) addr_t)
            = None) as Hfind.
    { apply (find_absent_any v (vector_ uv) (vector_ uv) s _ v);
        auto using probes_of_ptr. by intros r ?%Hsame. }
    rewrite (push_back_absent v uv Hrep Habs),
      (IndexOf_absent v uv Hrep Habs).
    unfold IndexOf, push_back; simpl. rewrite Hfind; simpl.
    split; [apply sentinel_is_SIZE_MAX|]. do 2 (split; [reflexivity|]).
    rewrite (last_index _ _ Hsize). unfold HashSet_insert.
    rewrite (find_absent_any v (vector_ uv) (vector_ uv ++ [v]) s _ v).
    + rewrite imap_app; simpl. rewrite Nat.add_0_r. by rewrite Hperm.
    + by intros r ?%Hsame.
    + intros j y Hj. by apply lookup_app_l_Some.
    + split; [|reflexivity]. unfold value; simpl.
      destruct (Z.ltb_spec (Z.of_nat (length (vector_ uv))) 0); [lia|].
      rewrite Nat2Z.id. by apply list_lookup_middle.
    + exact Habs.
Qed.

(** *** Hash and equality of references *)

(** X8: the hash of references agrees with their equality.  The two
    constructors that hash build a reference that caches the hash of the
    value it reads, and two such references that compare equal have the
    same hash, also when one reads the parameter and the other the
    vector. *)
Theorem UniquifyRef_hash_respects_eq (m : Memory T) :
  probes m (UniquifyRef_of_ptr SIZE_MAX T_hash m addr_t) (mem_t m)
  /\ (forall (i : nat) (x : T),
        mem_vector_ m !! i = Some x ->
        probes m
          (UniquifyRef_of_index SIZE_MAX T_hash m addr_vector_ (Z.of_nat i))
          x
        /\ UniquifyRef_of_index SIZE_MAX T_hash m addr_vector_ (Z.of_nat i)
           = committed i x)
  /\ (forall (a b : UniquifyRef) (x y : T),
        probes m a x -> probes m b y ->
        UniquifyRef_eq T_eq m a b = T_eq x y
        /\ (UniquifyRef_eq T_eq m a b = true ->
            UniquifyRef_hash a = UniquifyRef_hash b)).
Proof.
  split; [by split|]. split.
  - intros i x Hi.
    assert (UniquifyRef_of_index SIZE_MAX T_hash m addr_vector_ (Z.of_nat i)
            = committed i x) as ->.
    { unfold UniquifyRef_of_index, FillHashValue, value; simpl.
      destruct (Z.ltb_spec (Z.of_nat i) 0); [lia|].
      by rewrite Nat2Z.id, Hi. }
    split; [|reflexivity]. split; [|reflexivity].
    unfold value; simpl. destruct (Z.ltb_spec (Z.of_nat i) 0); [lia|].
    by rewrite Nat2Z.id.
  - intros a b x y [Hax Hah] [Hby Hbh].
    unfold UniquifyRef_eq, UniquifyRef_hash. rewrite Hax, Hby, Hah, Hbh.
    split; [reflexivity|]. apply T_hash_eq.
Qed.

End UniqueVectorProperties.

(** * The contract on a collection of strings *)

Module Example_properties.

Import Example.
Local Open Scope string_scope.

(** The hypotheses on the element type, for strings. *)
Ltac string_elements :=
  match goal with
  | |- forall x, String.eqb x x = true => exact String.eqb_refl
  | |- forall x y, String.eqb x y = true -> String.eqb y x = true =>
      intros x y H; rewrite String.eqb_sym; exact H
  | |- forall x y z, _ -> _ -> String.eqb x z = true =>
      intros x y z H1 H2; apply String.eqb_eq in H1, H2;
      rewrite H1, H2; apply String.eqb_refl
  | |- forall x y, _ -> string_hash x = string_hash y =>
      intros x y H; apply String.eqb_eq in H; rewrite H; reflexivity
  | |- 0 < SIZE_MAX => reflexivity
  end.

Lemma xyz_reachable :
  reachable SIZE_MAX String.eqb string_hash moved_from_string xyz.
Proof.
  apply reachable_Append; [apply reachable_new|].
  vm_compute. discriminate.
Qed.

Lemma xyz_vector : vector_ xyz = ["x"; "y"; "z"].
Proof. reflexivity. Qed.

Lemma q_not_stored : ~ stored String.eqb "q" xyz.
Proof.
  intros (i & x & Hi & Hx). rewrite xyz_vector in Hi.
  destruct i as [|[|[|i]]]; simpl in Hi; [| | |discriminate];
    injection Hi as <-; discriminate.
Qed.

Lemma y_stored : stored String.eqb "y" xyz.
Proof. exists 1%nat, "y". split; reflexivity. Qed.

(** Appending "y", which is stored, and "q", which is not. *)
Lemma push_back_contract_witness :
  push_back SIZE_MAX String.eqb string_hash "y" xyz = (false, xyz)
  /\ vector_ (snd (push_back SIZE_MAX String.eqb string_hash "q" xyz))
     = (vector_ xyz ++ ["q"])%list.
Proof.
  pose proof (fun v =>
    push_back_contract SIZE_MAX string String.eqb string_hash
      moved_from_string ltac:(string_elements) ltac:(string_elements)
      ltac:(string_elements) ltac:(string_elements)
      ltac:(string_elements) xyz v xyz_reachable) as H.
  split.
  - exact (proj1 (H "y") y_stored).
  - exact (proj1 (proj2 (proj1 (proj2 (H "q")) q_not_stored))).
Defined.

(** [IndexOf] of "y", stored at position 1, and of "q". *)
Lemma IndexOf_position_witness :
  IndexOf SIZE_MAX String.eqb string_hash "y" xyz = 1
  /\ IndexOf SIZE_MAX String.eqb string_hash "q" xyz = SIZE_MAX.
Proof.
  pose proof (fun v =>
    IndexOf_position SIZE_MAX string String.eqb string_hash
      moved_from_string ltac:(string_elements) ltac:(string_elements)
      ltac:(string_elements) ltac:(string_elements) xyz v
      xyz_reachable) as H.
  split.
  - exact (proj1 (H "y") 1%nat "y" eq_refl eq_refl).
  - exact (proj1 (proj2 (proj2 (proj2 (H "q")) q_not_stored))).
Defined.

(** The invariant in the state reached by the four appends. *)
Lemma invariant_reachable_witness :
  length (set_ xyz) = length (vector_ xyz).
Proof.
  exact (proj1 (proj2
    (invariant_reachable SIZE_MAX string String.eqb string_hash
       moved_from_string ltac:(string_elements) ltac:(string_elements)
       ltac:(string_elements) ltac:(string_elements) xyz
       xyz_reachable))).
Defined.

(** Moving "q" into the collection and copying it there. *)
Lemma push_back_move_equivalent_witness :
  fst (push_back_move SIZE_MAX String.eqb string_hash moved_from_string
         "q" xyz)
  = push_back SIZE_MAX String.eqb string_hash "q" xyz.
Proof.
  exact (proj1
    (push_back_move_equivalent SIZE_MAX string String.eqb string_hash
       moved_from_string ltac:(string_elements) ltac:(string_elements)
       ltac:(string_elements) ltac:(string_elements) xyz "q"
       xyz_reachable)).
Defined.

(** The scenario of the specification: appending "x", "y", "x", "z" to an
    empty collection of strings. *)
Example scenario_xyz :
  vector_ xyz = ["x"; "y"; "z"]
  /\ IndexOf SIZE_MAX String.eqb string_hash "y" xyz = 1
  /\ IndexOf SIZE_MAX String.eqb string_hash "q" xyz
     = static_cast_size_t SIZE_MAX (-1)
  /\ first_occurrences String.eqb [] ["x"; "y"; "x"; "z"]
     = ["x"; "y"; "z"].
Proof. repeat split; reflexivity. Qed.

(** ** More on the collection of strings *)

(** "y" stays at position 1 when "q" and "y" are appended. *)
Lemma stored_elements_stay_witness :
  vector_ xyz !! 1%nat = Some "y"
  /\ vector_ (Append SIZE_MAX String.eqb string_hash ["q"; "y"] xyz) !! 1%nat
     = Some "y".
Proof.
  split; [reflexivity|].
  exact (proj2 (proj2
    (stored_elements_stay SIZE_MAX string String.eqb string_hash
       moved_from_string xyz 1%nat "y" eq_refl)) ["q"; "y"]).
Defined.

(** Reading at the index of "y" gives a string equal to "y". *)
Lemma IndexOf_read_back_witness :
  exists x : string,
    at_index xyz (IndexOf SIZE_MAX String.eqb string_hash "y" xyz) = Some x
    /\ String.eqb x "y" = true.
Proof.
  exact (proj2 (proj1
    (IndexOf_read_back SIZE_MAX string String.eqb string_hash
       moved_from_string ltac:(string_elements) ltac:(string_elements)
       ltac:(string_elements) ltac:(string_elements)
       ltac:(string_elements) xyz "y" xyz_reachable) y_stored)).
Defined.

(** "q" is found right after it was appended. *)
Lemma push_back_then_IndexOf_witness :
  IndexOf SIZE_MAX String.eqb string_hash "q"
    (snd (push_back SIZE_MAX String.eqb string_hash "q" xyz))
  = (if fst (push_back SIZE_MAX String.eqb string_hash "q" xyz)
     then size xyz
     else IndexOf SIZE_MAX String.eqb string_hash "q" xyz).
Proof.
  refine (proj1
    (push_back_then_IndexOf SIZE_MAX string String.eqb string_hash
       moved_from_string ltac:(string_elements) ltac:(string_elements)
       ltac:(string_elements) ltac:(string_elements)
       ltac:(string_elements) xyz "q" xyz_reachable _)).
  vm_compute. discriminate.
Defined.

(** The index of "y" is the same after "q" was appended. *)
Lemma IndexOf_stable_witness :
  IndexOf SIZE_MAX String.eqb string_hash "y"
    (snd (push_back SIZE_MAX String.eqb string_hash "q" xyz))
  = IndexOf SIZE_MAX String.eqb string_hash "y" xyz.
Proof.
  refine (proj1
    (IndexOf_stable SIZE_MAX string String.eqb string_hash
       moved_from_string ltac:(string_elements) ltac:(string_elements)
       ltac:(string_elements) ltac:(string_elements) xyz "y"
       xyz_reachable y_stored) "q" _).
  vm_compute. discriminate.
Defined.

(** Appending "q" and "x" makes the collection at most two longer. *)
Lemma Append_membership_witness :
  size xyz
  <= size (Append SIZE_MAX String.eqb string_hash ["q"; "x"] xyz)
  <= size xyz + 2.
Proof.
  refine (proj2 (proj2
    (Append_membership SIZE_MAX string String.eqb string_hash
       moved_from_string ltac:(string_elements) ltac:(string_elements)
       ltac:(string_elements) ltac:(string_elements)
       ltac:(string_elements) xyz ["q"; "x"] xyz_reachable _))).
  vm_compute. discriminate.
Defined.

(** Appending "q" and "x" twice is appending them once. *)
Lemma Append_idempotent_witness :
  Append SIZE_MAX String.eqb string_hash ["q"; "x"]
    (Append SIZE_MAX String.eqb string_hash ["q"; "x"] xyz)
  = Append SIZE_MAX String.eqb string_hash ["q"; "x"] xyz.
Proof.
  refine (proj1
    (Append_idempotent SIZE_MAX string String.eqb string_hash
       moved_from_string ltac:(string_elements) ltac:(string_elements)
       ltac:(string_elements) ltac:(string_elements)
       ltac:(string_elements) xyz ["q"; "x"] xyz_reachable _)).
  vm_compute. discriminate.
Defined.

(** "z" is found at the same index with the references in reverse order. *)
Lemma set_order_irrelevant_witness :
  IndexOf SIZE_MAX String.eqb string_hash "z"
    (mkUniqueVector (rev (set_ xyz)) (vector_ xyz))
  = IndexOf SIZE_MAX String.eqb string_hash "z" xyz.
Proof.
  refine (proj1
    (set_order_irrelevant SIZE_MAX string String.eqb string_hash
       moved_from_string ltac:(string_elements) ltac:(string_elements)
       ltac:(string_elements) ltac:(string_elements) xyz
       (rev (set_ xyz)) "z" xyz_reachable _)).
  symmetry. apply Permutation_rev.
Defined.

(** A reference to the parameter "y" and the reference to element 1 of the
    vector "x", "y" have the same hash. *)
Lemma UniquifyRef_hash_respects_eq_witness :
  UniquifyRef_hash
    (UniquifyRef_of_ptr SIZE_MAX string_hash (mkMemory "y" ["x"; "y"])
       addr_t)
  = UniquifyRef_hash
      (UniquifyRef_of_index SIZE_MAX string_hash (mkMemory "y" ["x"; "y"])
         addr_vector_ 1).
Proof.
  pose proof (UniquifyRef_hash_respects_eq SIZE_MAX string String.eqb
                string_hash ltac:(string_elements)
                (mkMemory "y" ["x"; "y"])) as (Hptr & Hidx & Heq).
  destruct (Hidx 1%nat "y" eq_refl) as [Hvec _].
  exact (proj2 (Heq _ _ "y" "y" Hptr Hvec) eq_refl).
Defined.

End Example_properties.

(** * Properties of [SourceDir] *)

Module source_dir_properties.

Import source_dir.
Local Open Scope string_scope.

Lemma substring_all (s : string) : String.substring 0 (String.length s) s = s.
Proof. induction s as [|c s IH]; simpl; [reflexivity|by rewrite IH]. Qed.

Lemma is_source_absolute_iff (d : SourceDir) :
  is_source_absolute d = true
  <-> exists rest : string, value_ d = String "/" (String "/" rest).
Proof.
  destruct d as [s]. unfold is_source_absolute, char_is; simpl. split.
  - destruct s as [|c1 [|c2 rest]]; simpl; try discriminate.
    intros [H1%Ascii.eqb_eq H2%Ascii.eqb_eq]%andb_prop.
    subst. eauto.
  - intros [rest ->]. reflexivity.
Qed.

Lemma ltb_lexical (a b : string) :
  String.ltb a b = true <-> lexical_lt a b.
Proof.
  unfold String.ltb. revert b.
  induction a as [|c1 a IH]; intros [|c2 b]; simpl.
  - split; [discriminate|inversion 1].
  - split; [constructor|reflexivity].
  - split; [discriminate|inversion 1].
  - unfold Ascii.compare.
    destruct (N.compare_spec (N_of_ascii c1) (N_of_ascii c2)) as [E|L|G].
    + assert (c1 = c2) as ->
        by (rewrite <- (ascii_N_embedding c1), <- (ascii_N_embedding c2);
            congruence).
      rewrite IH. split; [by constructor|].
      inversion 1; subst; [lia|assumption].
    + split; [by constructor|reflexivity].
    + split; [discriminate|].
      inversion 1; subst; lia.
Qed.

Lemma drop_last_slash (s : string) :
  ends_with_slash s = true ->
  s = String.append (String.substring 0 (String.length s - 1) s) "/".
Proof.
  unfold ends_with_slash, char_is.
  induction s as [|c s IH]; simpl; [discriminate|].
  destruct s as [|c' s']; simpl in *.
  - intros ->%Ascii.eqb_eq. reflexivity.
  - intros H. rewrite Nat.sub_0_r in IH. f_equal. by apply IH.
Qed.

(** C4, as stated, fails on the empty string: the claim has it neither
    source-absolute nor system-absolute, and [is_system_absolute] reports
    the null directory system-absolute. *)
Lemma empty_not_neither :
  ~ (is_source_absolute (mkSourceDir "") = false
     /\ is_system_absolute (mkSourceDir "") = false).
Proof. intros [_ H]. discriminate H. Qed.

(** C4, amended: the two predicates split the values in two.  A value
    beginning with two slashes is source-absolute and not system-absolute;
    every other value is system-absolute and not source-absolute, the
    empty string included, which [is_null] tells apart.  Both predicates
    depend on the first two characters only. *)
Theorem classification (d : SourceDir) :
  (is_source_absolute d = true
   <-> exists rest : string, value_ d = String.append "//" rest)
  /\ (is_system_absolute d = true
      <-> ~ exists rest : string, value_ d = String.append "//" rest)
  /\ (is_null d = true <-> value_ d = "")
  /\ (forall d' : SourceDir,
        String.substring 0 2 (value_ d) = String.substring 0 2 (value_ d') ->
        is_source_absolute d = is_source_absolute d'
        /\ is_system_absolute d = is_system_absolute d')
  /\ (is_source_absolute (mkSourceDir "//foo/") = true
      /\ is_system_absolute (mkSourceDir "//foo/") = false)
  /\ (is_source_absolute (mkSourceDir "/usr/foo/") = false
      /\ is_system_absolute (mkSourceDir "/usr/foo/") = true)
  /\ (is_null (mkSourceDir "") = true
      /\ is_source_absolute (mkSourceDir "") = false
      /\ is_system_absolute (mkSourceDir "") = true).
Proof.
  split; [apply is_source_absolute_iff|]. split.
  - unfold is_system_absolute. rewrite negb_true_iff.
    rewrite <- is_source_absolute_iff. by destruct (is_source_absolute d).
  - split; [|split; [|by repeat split]].
    + destruct d as [[|c s]]; simpl; by split.
    + intros [s'] Hsub. destruct d as [s]. unfold is_system_absolute.
      enough (is_source_absolute (mkSourceDir s)
              = is_source_absolute (mkSourceDir s')) as -> by done.
      unfold is_source_absolute, char_is; simpl in *.
      destruct s as [|c1 [|c2 s]]; destruct s' as [|c1' [|c2' s']];
        simpl in *; try discriminate; try reflexivity.
      injection Hsub as -> ->. reflexivity.
Qed.

(** C10: [is_system_absolute] is the negation of [is_source_absolute] for
    every stored string, the empty one and those that do not begin with a
    slash included; the null directory is reported system-absolute, and
    every value is exactly one of the two. *)
Theorem is_system_absolute_negation (d : SourceDir) :
  is_system_absolute d = negb (is_source_absolute d)
  /\ xorb (is_source_absolute d) (is_system_absolute d) = true
  /\ is_system_absolute SourceDir_default = true
  /\ is_system_absolute (mkSourceDir "foo") = true.
Proof.
  unfold is_system_absolute. by destruct (is_source_absolute d).
Qed.

(** C6: equality, order and hash of directories are functions of the
    stored strings.  Two directories compare equal exactly when their
    strings are the same string, which is when they are the same
    directory; [operator<] is the lexical order of the strings; and
    directories that compare equal have the same hash. *)
Theorem value_based_comparison (hash_string : string -> Z)
    (a b : SourceDir) :
  (operator_eq a b = true <-> value_ a = value_ b)
  /\ (operator_eq a b = true <-> a = b)
  /\ operator_ne a b = negb (operator_eq a b)
  /\ (operator_lt a b = true <-> lexical_lt (value_ a) (value_ b))
  /\ (operator_eq a b = true -> hash hash_string a = hash hash_string b)
  /\ (forall a' b' : SourceDir,
        value_ a = value_ a' -> value_ b = value_ b' ->
        operator_eq a b = operator_eq a' b'
        /\ operator_lt a b = operator_lt a' b'
        /\ hash hash_string a = hash hash_string a').
Proof.
  destruct a as [sa], b as [sb]. unfold operator_eq, operator_lt; simpl.
  split; [apply String.eqb_eq|]. split.
  - rewrite String.eqb_eq. split; [by intros ->|by intros [= ->]].
  - split; [reflexivity|]. split; [apply ltb_lexical|]. split.
    + by intros ->%String.eqb_eq.
    + intros [sa'] [sb']; simpl. by intros <- <-.
Qed.

(** C7: on a source-absolute directory the [CHECK] of
    [SourceAbsoluteWithOneSlash] passes and the result is the stored
    string without its first character, which is a slash; on any other
    directory the [CHECK] fails, which aborts and returns nothing. *)
Theorem SourceAbsoluteWithOneSlash_contract (d : SourceDir) :
  (is_source_absolute d = true ->
   CHECK (is_source_absolute d) = Some tt
   /\ exists rest : string,
        value_ d = String "/" rest
        /\ SourceAbsoluteWithOneSlash d = Some rest)
  /\ (is_source_absolute d = false ->
      CHECK (is_source_absolute d) = None
      /\ SourceAbsoluteWithOneSlash d = None).
Proof.
  unfold SourceAbsoluteWithOneSlash. split; intros H.
  - rewrite H; simpl. split; [reflexivity|].
    apply is_source_absolute_iff in H as [rest H].
    exists (String "/" rest). split; [exact H|].
    unfold string_view. rewrite H. simpl. by rewrite substring_all.
  - by rewrite H.
Qed.

(** C8: for a directory that follows the separator convention,
    [SourceWithNoTrailingSlash] returns the roots "/" and "//" as they
    are, and any other value without its last character, which is a
    slash (the empty value, which has none, stays empty); so "//" gives
    "//" and "//a/b/" gives "//a/b". *)
Theorem SourceWithNoTrailingSlash_contract (d : SourceDir) :
  follows_convention d = true ->
  (value_ d = "/" \/ value_ d = "//" ->
   SourceWithNoTrailingSlash d = value_ d)
  /\ (value_ d = "" -> SourceWithNoTrailingSlash d = "")
  /\ (value_ d <> "" -> value_ d <> "/" -> value_ d <> "//" ->
      value_ d = String.append (SourceWithNoTrailingSlash d) "/")
  /\ SourceWithNoTrailingSlash (mkSourceDir "//") = "//"
  /\ SourceWithNoTrailingSlash (mkSourceDir "//a/b/") = "//a/b".
Proof.
  destruct d as [s]. unfold follows_convention, is_null; simpl.
  intros Hconv. split; [by intros [->| ->]|].
  split; [by intros ->|]. split; [|by split].
  intros Hne H1 H2. unfold SourceWithNoTrailingSlash; simpl.
  apply orb_prop in Hconv as [Hnull|[Hfirst Hlast]%andb_prop].
  { destruct s; [done|discriminate]. }
  destruct s as [|c1 [|c2 [|c3 s]]]; [done| | |].
  - unfold char_is in Hfirst; simpl in Hfirst.
    apply Ascii.eqb_eq in Hfirst. by subst.
  - unfold char_is, ends_with_slash in *; simpl in *.
    apply Ascii.eqb_eq in Hfirst, Hlast. by subst.
  - change (2 <? String.length (String c1 (String c2 (String c3 s))))%nat
      with true; cbv iota.
    by apply drop_last_slash.
Qed.

(** The directory "//a/b/" follows the convention and loses its last
    slash. *)
Lemma SourceWithNoTrailingSlash_contract_witness :
  follows_convention (mkSourceDir "//a/b/") = true
  /\ "//a/b/"
     = String.append (SourceWithNoTrailingSlash (mkSourceDir "//a/b/")) "/".
Proof.
  split; [reflexivity|].
  refine (proj1 (proj2 (proj2
    (SourceWithNoTrailingSlash_contract (mkSourceDir "//a/b/") eq_refl)))
    _ _ _); simpl; discriminate.
Defined.

(** C9: whatever the base directory, the file flag, the error object and
    the source root, [ResolveRelativeAs] on the empty string returns the
    empty string and sets the error to the empty-input kind, blaming the
    input; it resolves nothing, and so does the directory wrapper. *)
Theorem ResolveRelativeAs_empty_input (Value : Type)
    (absolute_form_ok : string -> bool) (this : SourceDir)
    (as_file : bool) (blame : Value) (err : Err Value)
    (source_root : string) :
  ResolveRelativeAs absolute_form_ok this as_file blame "" err source_root
  = ("", Err_make EmptyInput blame "invalid path: empty")
  /\ ResolveRelativeDir absolute_form_ok this blame "" err source_root
     = (SourceDir_default, Err_make EmptyInput blame "invalid path: empty")
  /\ (forall input : string,
        snd (ResolveRelativeAs absolute_form_ok this as_file blame input
               None source_root)
        = Err_make EmptyInput blame "invalid path: empty" ->
        input = "").
Proof.
  split; [reflexivity|]. split; [reflexivity|].
  intros input. unfold ResolveRelativeAs.
  destruct input as [|c input]; [reflexivity|simpl].
  repeat match goal with
         | |- context [if ?b then _ else _] => destruct b
         | |- context [match ?o with Some _ => _ | None => _ end] =>
             destruct o
         end; simpl; discriminate.
Qed.

(** ** Order and views *)

Lemma lexical_lt_irrefl (s : string) : ~ lexical_lt s s.
Proof.
  induction s as [|c s IH]; inversion 1; subst; [lia|by apply IH].
Qed.

Lemma lexical_lt_trans (a b c : string) :
  lexical_lt a b -> lexical_lt b c -> lexical_lt a c.
Proof.
  intros Hab. revert c.
  induction Hab as [c1 s1|c1 c2 s1 s2 Hlt|c1 s1 s2 Hlt IH]; intros c Hbc;
    inversion Hbc; subst.
  - constructor.
  - constructor.
  - apply lexical_lt_head. lia.
  - by apply lexical_lt_head.
  - by apply lexical_lt_head.
  - apply lexical_lt_tail. by apply IH.
Qed.

Lemma ltb_false_eq (a b : string) :
  String.ltb a b = false -> String.ltb b a = false -> a = b.
Proof.
  unfold String.ltb. rewrite (String.compare_antisym b a).
  destruct (String.compare a b) eqn:E; simpl; try discriminate.
  intros _ _. by apply String.compare_eq_iff.
Qed.

(** X9: [operator<] is a strict total order on directories that goes with
    [operator==]: no directory is below itself, the order is asymmetric and
    transitive, two directories neither of which is below the other are
    equal, and equal ones are not ordered.  The null directory is below
    every other one. *)
Theorem operator_lt_strict_total_order (a b c : SourceDir) :
  operator_lt a a = false
  /\ (operator_lt a b = true -> operator_lt b a = false)
  /\ (operator_lt a b = true -> operator_lt b c = true ->
      operator_lt a c = true)
  /\ (operator_lt a b = false -> operator_lt b a = false ->
      operator_eq a b = true)
  /\ (operator_eq a b = true -> operator_lt a b = false)
  /\ operator_lt a SourceDir_default = false
  /\ operator_lt SourceDir_default a = negb (is_null a).
Proof.
  destruct a as [sa], b as [sb], c as [sc].
  unfold operator_lt, operator_eq, is_null; simpl.
  assert (forall s, String.ltb s s = false) as Hirr.
  { intros s. destruct (String.ltb s s) eqn:E; [|reflexivity].
    apply ltb_lexical in E. by apply lexical_lt_irrefl in E. }
  split; [apply Hirr|]. split.
  { intros Hab. destruct (String.ltb sb sa) eqn:Hba; [|reflexivity].
    apply ltb_lexical in Hab, Hba.
    destruct (lexical_lt_irrefl sa). by apply (lexical_lt_trans sa sb sa). }
  split.
  { rewrite !ltb_lexical. apply lexical_lt_trans. }
  split.
  { intros Hab Hba. apply String.eqb_eq. by apply ltb_false_eq. }
  split.
  { intros ->%String.eqb_eq. apply Hirr. }
  split; by destruct sa.
Qed.

Lemma length_substring_0 (n : nat) (s : string) :
  String.length (String.substring 0 n s) = Nat.min n (String.length s).
Proof.
  revert n. induction s as [|c s IH]; intros [|n]; simpl; try reflexivity.
  by rewrite IH.
Qed.

Lemma prefix_substring_0 (n : nat) (s : string) :
  String.prefix (String.substring 0 n s) s = true.
Proof.
  revert n. induction s as [|c s IH]; intros [|n]; simpl; try reflexivity.
  destruct (ascii_dec c c); [apply IH|congruence].
Qed.

(** X10: [SourceWithNoTrailingSlash] keeps the kind of any directory,
    whether or not it follows the separator convention: the result is a
    prefix of the value, one character shorter when the value has more than
    two characters and the value itself otherwise; it is source-absolute
    exactly when the directory is, and empty exactly when the directory is
    null. *)
Theorem SourceWithNoTrailingSlash_keeps_kind (d : SourceDir) :
  String.prefix (SourceWithNoTrailingSlash d) (value_ d) = true
  /\ String.length (SourceWithNoTrailingSlash d)
     = (if (2 <? String.length (value_ d))%nat
        then (String.length (value_ d) - 1)%nat
        else String.length (value_ d))
  /\ is_source_absolute (mkSourceDir (SourceWithNoTrailingSlash d))
     = is_source_absolute d
  /\ is_null (mkSourceDir (SourceWithNoTrailingSlash d)) = is_null d.
Proof.
  destruct d as [s]. unfold SourceWithNoTrailingSlash, string_view; simpl.
  destruct (2 <? String.length s)%nat eqn:Hlen.
  - apply Nat.ltb_lt in Hlen. split; [apply prefix_substring_0|]. split.
    { rewrite length_substring_0. lia. }
    destruct s as [|c1 [|c2 [|c3 s]]]; simpl in Hlen; try lia.
    split; reflexivity.
  - split; [|by repeat split].
    pose proof (prefix_substring_0 (String.length s) s) as H.
    by rewrite substring_all in H.
Qed.

(** X11: the view with one slash exists exactly for the source-absolute
    directories.  It is one character shorter than the value and begins
    with a slash; it begins with a single slash unless the value begins
    with three, in which case the view is itself source-absolute. *)
Theorem SourceAbsoluteWithOneSlash_view (d : SourceDir) :
  (SourceAbsoluteWithOneSlash d = None <-> is_system_absolute d = true)
  /\ (forall rest : string,
        SourceAbsoluteWithOneSlash d = Some rest ->
        String.length rest = (String.length (value_ d) - 1)%nat
        /\ char_is rest 0 "/" = true
        /\ is_source_absolute (mkSourceDir rest) = char_is (value_ d) 2 "/").
Proof.
  unfold SourceAbsoluteWithOneSlash, is_system_absolute.
  destruct (is_source_absolute d) eqn:Habs; simpl.
  - split; [by split|]. intros rest [= <-].
    apply is_source_absolute_iff in Habs as [tail Htail].
    rewrite Htail. unfold string_view; simpl.
    rewrite substring_all.
    split; [reflexivity|]. split; [reflexivity|].
    by destruct tail.
  - split; [by split|discriminate].
Qed.

End source_dir_properties.

(** * A collection of directories

    [std::hash<SourceDir>] and [operator==] make [SourceDir] an element
    type of [UniqueVector]. *)

Module source_dir_collection.

Import source_dir.

(** The collection after appending "//a/", "/usr/" and "//a/" again. *)
Definition dirs : UniqueVector SourceDir :=
  Append Example.SIZE_MAX operator_eq (hash Example.string_hash)
    [mkSourceDir "//a/"; mkSourceDir "/usr/"; mkSourceDir "//a/"]
    UniqueVector_new.

Lemma operator_eq_sym (a b : SourceDir) :
  operator_eq a b = true -> operator_eq b a = true.
Proof. unfold operator_eq. by rewrite String.eqb_sym. Qed.

Lemma operator_eq_trans (a b c : SourceDir) :
  operator_eq a b = true -> operator_eq b c = true -> operator_eq a c = true.
Proof.
  unfold operator_eq. intros ->%String.eqb_eq ->%String.eqb_eq.
  apply String.eqb_refl.
Qed.

Lemma hash_operator_eq (hash_string : string -> Z) (a b : SourceDir) :
  operator_eq a b = true -> hash hash_string a = hash hash_string b.
Proof. unfold operator_eq, hash, value. by intros ->%String.eqb_eq. Qed.

(** X12: a [UniqueVector<SourceDir>] is a collection of directories with
    different strings.  In every reachable state no two stored directories
    have the same value; offering a directory whose value is stored
    returns false, changes nothing, and [IndexOf] gives the position of
    that value; offering one whose value is not stored appends it, and
    before that [IndexOf] gives the sentinel. *)
Theorem SourceDir_collection (SIZE_MAX : Z) (hash_string : string -> Z)
    (moved_from : SourceDir -> SourceDir) (uv : UniqueVector SourceDir)
    (d : SourceDir) :
  0 < SIZE_MAX ->
  reachable SIZE_MAX operator_eq (hash hash_string) moved_from uv ->
  (forall (i j : nat) (a b : SourceDir),
     i <> j -> vector_ uv !! i = Some a -> vector_ uv !! j = Some b ->
     value a <> value b)
  /\ (forall (i : nat) (a : SourceDir),
        vector_ uv !! i = Some a -> value a = value d ->
        push_back SIZE_MAX operator_eq (hash hash_string) d uv = (false, uv)
        /\ IndexOf SIZE_MAX operator_eq (hash hash_string) d uv = Z.of_nat i)
  /\ ((forall (i : nat) (a : SourceDir),
         vector_ uv !! i = Some a -> value a <> value d) ->
      IndexOf SIZE_MAX operator_eq (hash hash_string) d uv = SIZE_MAX
      /\ fst (push_back SIZE_MAX operator_eq (hash hash_string) d uv) = true
      /\ vector_ (snd (push_back SIZE_MAX operator_eq (hash hash_string) d uv))
         = vector_ uv ++ [d]).
Proof.
  intros Hpos Hreach.
  pose proof (reachable_represents SIZE_MAX SourceDir operator_eq
                (hash hash_string) moved_from operator_eq_sym
                operator_eq_trans (hash_operator_eq hash_string) Hpos uv
                Hreach) as Hrep.
  split; [|split].
  - intros i j a b Hne Hi Hj Hval.
    destruct Hrep as [_ Hdis _]. specialize (Hdis i j a b Hne Hi Hj).
    unfold operator_eq, value in *. rewrite Hval, String.eqb_refl in Hdis.
    discriminate.
  - intros i a Hi Hval.
    assert (operator_eq a d = true) as Heq
      by (unfold operator_eq, value in *; rewrite Hval;
          apply String.eqb_refl).
    split.
    + apply (push_back_present SIZE_MAX SourceDir operator_eq
               (hash hash_string) operator_eq_sym operator_eq_trans
               (hash_operator_eq hash_string) d uv Hrep).
      exists i, a. by split.
    + by apply (IndexOf_present SIZE_MAX SourceDir operator_eq
                  (hash hash_string) operator_eq_sym operator_eq_trans
                  (hash_operator_eq hash_string) d uv i a Hrep).
  - intros Hnew.
    assert (absent operator_eq d uv) as Habs.
    { intros i a Hi. apply String.eqb_neq. by apply (Hnew i a). }
    split.
    + by apply (IndexOf_absent SIZE_MAX SourceDir operator_eq
                  (hash hash_string) (hash_operator_eq hash_string) Hpos).
    + by rewrite (push_back_absent SIZE_MAX SourceDir operator_eq
                    (hash hash_string) (hash_operator_eq hash_string) d uv
                    Hrep Habs).
Qed.

(** Offering "//a/" again to the collection of directories. *)
Lemma SourceDir_collection_witness :
  push_back Example.SIZE_MAX operator_eq (hash Example.string_hash)
    (mkSourceDir "//a/") dirs
  = (false, dirs)
  /\ IndexOf Example.SIZE_MAX operator_eq (hash Example.string_hash)
       (mkSourceDir "//a/") dirs
     = 0.
Proof.
  refine (proj1 (proj2
    (SourceDir_collection Example.SIZE_MAX Example.string_hash
       (fun _ => SourceDir_default) dirs (mkSourceDir "//a/") eq_refl _))
    0%nat (mkSourceDir "//a/") eq_refl eq_refl).
  apply reachable_Append; [apply reachable_new|].
  vm_compute. discriminate.
Defined.

End source_dir_collection.
